(** * Forge-CLI bridge listener: block scanner and log decoder

    A shallow embedding of [src/script.py]: the [BridgeEventScanner]
    ([scan_blocks], [_parse_log]), the part of [BlockchainConnector] the poll
    loop uses ([connect], [get_latest_block]) and the body of the
    [while True] loop of [main].

    Python integers are [Z], [bytes]/[HexBytes] values are [list byte],
    [str] values are [list ascii].  Effects (log records, RPC calls, sleeps)
    are collected in a writer-style trace; exceptions are values of [exn];
    the only mutable object state that the loop reads back, [connector.w3],
    is threaded as a boolean. *)

From Stdlib.Strings Require Import Ascii String Byte.
From Stdlib Require Import ZArith List Bool Lia Sorted.
Import ListNotations.
Local Open Scope list_scope.
Local Open Scope Z_scope.

Set Implicit Arguments.

(** ** Python values *)

Definition str := list ascii.
Definition bytes := list byte.

Definition lit (s : string) : str := list_ascii_of_string s.
Arguments lit s%_string.

(** [s[-n:]] on a sequence: the last [n] items, or all of [s] when it is
    shorter. *)
Definition last_n {A} (n : nat) (s : list A) : list A :=
  skipn (length s - n) s.

(** [b[i:j]] on bytes, for [0 <= i <= j]. *)
Definition slice {A} (i j : nat) (s : list A) : list A :=
  firstn (j - i) (skipn i s).

Definition byte_val (b : byte) : Z := Z.of_N (Byte.to_N b).

Definition byte_of_Z (z : Z) : byte :=
  match Byte.of_N (Z.to_N (z mod 256)) with
  | Some b => b
  | None => x00
  end.

(** ** Hexadecimal text *)

Definition hex_digit (n : Z) : ascii :=
  if n <? 10 then ascii_of_N (Z.to_N (48 + n))
  else ascii_of_N (Z.to_N (87 + n)).

(** Value of one hexadecimal digit, either case, as [int(c, 16)] reads it. *)
Definition hex_val (c : ascii) : option Z :=
  let n := Z.of_N (N_of_ascii c) in
  if (48 <=? n) && (n <=? 57) then Some (n - 48)
  else if (97 <=? n) && (n <=? 102) then Some (n - 87)
  else if (65 <=? n) && (n <=? 70) then Some (n - 55)
  else None.

Definition is_hex_char (c : ascii) : bool :=
  match hex_val c with Some _ => true | None => false end.

(** [str.upper()] and [str.lower()] on one ASCII character. *)
Definition upper (c : ascii) : ascii :=
  let n := Z.of_N (N_of_ascii c) in
  if (97 <=? n) && (n <=? 122) then ascii_of_N (Z.to_N (n - 32)) else c.

Definition lower (c : ascii) : ascii :=
  let n := Z.of_N (N_of_ascii c) in
  if (65 <=? n) && (n <=? 90) then ascii_of_N (Z.to_N (n + 32)) else c.

(** [bytes.hex()]: two lower-case digits per byte. *)
Fixpoint hexlify (b : bytes) : str :=
  match b with
  | [] => []
  | x :: r => hex_digit (byte_val x / 16) :: hex_digit (byte_val x mod 16) :: hexlify r
  end.

(** [big_endian_to_int], i.e. [int.from_bytes(b, 'big')]. *)
Definition big_endian_to_int (b : bytes) : Z :=
  fold_left (fun acc x => acc * 256 + byte_val x) b 0.

(** ** Keccak-256, as used by [Web3.to_checksum_address] *)

Module Keccak.

Definition mask64 : Z := 2 ^ 64 - 1.

Definition rotl64 (x : Z) (n : Z) : Z :=
  Z.land (Z.lor (Z.shiftl x n) (Z.shiftr x (64 - n))) mask64.

Definition lane (st : list Z) (x y : nat) : Z :=
  nth (x mod 5 + 5 * (y mod 5))%nat st 0.

Definition round_constants : list Z :=
  [ 0x0000000000000001; 0x0000000000008082; 0x800000000000808A;
    0x8000000080008000; 0x000000000000808B; 0x0000000080000001;
    0x8000000080008081; 0x8000000000008009; 0x000000000000008A;
    0x0000000000000088; 0x0000000080008009; 0x000000008000000A;
    0x000000008000808B; 0x800000000000008B; 0x8000000000008089;
    0x8000000000008003; 0x8000000000008002; 0x8000000000000080;
    0x000000000000800A; 0x800000008000000A; 0x8000000080008081;
    0x8000000000008080; 0x0000000080000001; 0x8000000080008008 ].

(** Rotation offsets, indexed like the state: entry [x + 5 * y]. *)
Definition rotation_offsets : list Z :=
  [  0;  1; 62; 28; 27;
    36; 44;  6; 55; 20;
     3; 10; 43; 25; 39;
    41; 45; 15; 21;  8;
    18;  2; 61; 56; 14 ].

Definition coords : list (nat * nat) :=
  flat_map (fun y => map (fun x => (x, y)) (seq 0 5)) (seq 0 5).

Definition theta (a : list Z) : list Z :=
  let c x := fold_left Z.lxor (map (fun y => lane a x y) (seq 0 5)) 0 in
  let d x := Z.lxor (c (x + 4)%nat) (rotl64 (c (x + 1)%nat) 1) in
  map (fun '(x, y) => Z.lxor (lane a x y) (d x)) coords.

(** rho and pi together: [b[y][2x+3y] = rotl (a[x][y]) r[x][y]], read off
    at the destination: the lane that lands at [(x, y)] comes from
    [(x + 3y, x)]. *)
Definition rho_pi (a : list Z) : list Z :=
  map (fun '(x, y) =>
         let sx := ((x + 3 * y) mod 5)%nat in
         let sy := x in
         rotl64 (lane a sx sy) (nth (sx + 5 * sy)%nat rotation_offsets 0))
      coords.

Definition chi (b : list Z) : list Z :=
  map (fun '(x, y) =>
         Z.lxor (lane b x y)
                (Z.land (Z.lxor (lane b (x + 1) y) mask64) (lane b (x + 2) y)))
      coords.

Definition iota (rc : Z) (a : list Z) : list Z :=
  match a with
  | [] => []
  | a0 :: r => Z.lxor a0 rc :: r
  end.

Definition keccak_round (a : list Z) (rc : Z) : list Z :=
  iota rc (chi (rho_pi (theta a))).

Definition keccak_f (a : list Z) : list Z :=
  fold_left keccak_round round_constants a.

Definition rate : nat := 136.

(** Little-endian lanes of a block. *)
Fixpoint le_to_int (b : bytes) : Z :=
  match b with
  | [] => 0
  | x :: r => byte_val x + 256 * le_to_int r
  end.

Fixpoint chunks {A} (fuel size : nat) (l : list A) : list (list A) :=
  match fuel with
  | O => []
  | S f =>
      match l with
      | [] => []
      | _ => firstn size l :: chunks f size (skipn size l)
      end
  end.

Definition int_to_le (n : nat) (z : Z) : bytes :=
  map (fun i => byte_of_Z (Z.shiftr z (8 * Z.of_nat i))) (seq 0 n).

(** Original Keccak padding (domain byte [0x01]), as in Ethereum. *)
Definition pad (msg : bytes) : bytes :=
  let fill := (rate - 1 - length msg mod rate)%nat in
  match fill with
  | O => msg ++ [byte_of_Z 0x81]
  | S k => msg ++ [byte_of_Z 0x01] ++ repeat x00 k ++ [byte_of_Z 0x80]
  end.

Fixpoint xor_lanes (a b : list Z) : list Z :=
  match a, b with
  | x :: a', y :: b' => Z.lxor x y :: xor_lanes a' b'
  | _, [] => a
  | [], _ => []
  end.

Definition absorb (st : list Z) (block : bytes) : list Z :=
  keccak_f (xor_lanes st (map le_to_int (chunks (length block) 8 block))).

Definition keccak256 (msg : bytes) : bytes :=
  let p := pad msg in
  let st := fold_left absorb (chunks (length p) rate p) (repeat 0 25) in
  firstn 32 (flat_map (int_to_le 8) st).

End Keccak.

(** [str.encode()] of ASCII text. *)
Definition bytes_of_str (s : str) : bytes :=
  map (fun c => byte_of_Z (Z.of_N (N_of_ascii c))) s.

(** ** Exceptions *)

(** The exception classes that reach a handler of the scanner or of the poll
    loop.  All of them derive from [Exception]; [ConnectionError] is the
    built-in one, [RequestsConnectionError] is
    [requests.exceptions.ConnectionError], which is not a subclass of it. *)
Inductive exn : Type :=
| IndexError
| ValueError
| AttributeError
| BlockNotFound
| ConnectionError
| RequestsConnectionError
| OtherException.

Definition is_BlockNotFound (e : exn) : bool :=
  match e with BlockNotFound => true | _ => false end.

Definition is_ConnectionError (e : exn) : bool :=
  match e with ConnectionError => true | _ => false end.

Inductive res (A : Type) : Type :=
| Ok (a : A)
| Raise (e : exn).
Arguments Ok {A} a.
Arguments Raise {A} e.

(** ** The helpers of [Web3] that [_parse_log] calls *)

Definition remove_0x_prefix (s : str) : str :=
  match s with
  | "0"%char :: "x"%char :: r => r
  | "0"%char :: "X"%char :: r => r
  | _ => s
  end.

(** EIP-55 casing: character [i] of the address is upper-cased when hex
    digit [i] of the hash is above 7. *)
Fixpoint checksum_case (addr hash : str) : str :=
  match addr, hash with
  | c :: cs, h :: hs =>
      (match hex_val h with
       | Some n => if 7 <? n then upper c else c
       | None => c
       end) :: checksum_case cs hs
  | _, _ => addr
  end.

Definition checksum_encode (addr : str) : str :=
  lit "0x" ++ checksum_case addr (hexlify (Keccak.keccak256 (bytes_of_str addr))).

(** [Web3.to_checksum_address(value)] for a [str] argument: the text must be
    40 hexadecimal digits after an optional [0x], otherwise [ValueError]. *)
Definition to_checksum_address (value : str) : res str :=
  let norm := map lower (remove_0x_prefix value) in
  if forallb is_hex_char norm && (length norm =? 40)%nat
  then Ok (checksum_encode norm)
  else Raise ValueError.

Fixpoint hex_digits_val (acc : Z) (s : str) : option Z :=
  match s with
  | [] => Some acc
  | c :: r =>
      match hex_val c with
      | Some d => hex_digits_val (acc * 16 + d) r
      | None => None
      end
  end.

(** [Web3.to_int(hexstr=s)], i.e. [int(s, 16)], on text made of hexadecimal
    digits with an optional [0x] in front (all that [.hex()] produces). *)
Definition to_int_hexstr (s : str) : res Z :=
  match remove_0x_prefix s with
  | [] => Raise ValueError
  | d => match hex_digits_val 0 d with
         | Some n => Ok n
         | None => Raise ValueError
         end
  end.

(** [Web3.to_int(primitive)] for a [bytes] argument. *)
Definition to_int_bytes (b : bytes) : Z := big_endian_to_int b.

(** [seq[i]] with Python's [IndexError]. *)
Definition getitem {A} (s : list A) (i : nat) : res A :=
  match nth_error s i with
  | Some a => Ok a
  | None => Raise IndexError
  end.

(** ** Data *)

(** [web3.types.LogReceipt], the keys [_parse_log] reads. *)
Record LogReceipt : Type := {
  topics : list bytes;
  data : bytes;
  transactionHash : bytes;
  blockNumber : Z
}.

(** The dictionary [parsed_data] that [_parse_log] builds: the same seven
    keys on every path. *)
Record ParsedData : Type := {
  token : str;
  sender : str;
  nonce : Z;
  amount : Z;
  destinationChainId : Z;
  txHash : str;
  blockHeight : Z
}.

Record Config : Type := {
  POLL_INTERVAL_SECONDS : Z;
  CONFIRMATIONS_REQUIRED : Z
}.

(** ** Effects *)

Inductive level : Type := INFO | WARNING | ERROR | CRITICAL.

(** One constructor per log line of the modelled code. *)
Inductive message : Type :=
| MsgConnected
| MsgCouldNotConnect (e : exn)
| MsgNotConnected
| MsgScanning (from_block to_block : Z)
| MsgFound (n : nat)
| MsgRangeNotAvailable (from_block to_block : Z)
| MsgScanError (e : exn)
| MsgParsed (tx : str)
| MsgNewEvents (n : nat)
| MsgProcessFailed (tx : str)
| MsgScanComplete (last_processed_block : Z)
| MsgNoNewBlocks (latest_block : Z)
| MsgConnectionError (e : exn)
| MsgReconnectFailed (e : exn)
| MsgCritical (e : exn).

Inductive effect : Type :=
| Log (lvl : level) (msg : message)
| NewProvider
| Web3IsConnected
| EthChainId
| EthBlockNumber
| EthGetLogs (from_block to_block : Z)
| ProcessEvent (ev : ParsedData)
| Sleep (seconds : Z).

(** A computation reads whether [connector.w3] is set, and yields a value or
    an exception, the new [w3] flag and the effects it performed, in order. *)
Record Run (A : Type) : Type := {
  outcome : res A;
  w3 : bool;
  effects : list effect
}.

Definition M (A : Type) : Type := bool -> Run A.

Definition ret {A} (a : A) : M A :=
  fun c => {| outcome := Ok a; w3 := c; effects := [] |}.

Definition raise {A} (e : exn) : M A :=
  fun c => {| outcome := Raise e; w3 := c; effects := [] |}.

Definition bind {A B} (m : M A) (k : A -> M B) : M B :=
  fun c =>
    match m c with
    | Build_Run (Ok a) c1 t1 =>
        match k a c1 with
        | Build_Run o c2 t2 => Build_Run o c2 (t1 ++ t2)
        end
    | Build_Run (Raise e) c1 t1 => Build_Run (Raise e) c1 t1
    end.

(** [try: m except Exception as e: h e]. *)
Definition try_except {A} (m : M A) (h : exn -> M A) : M A :=
  fun c =>
    match m c with
    | Build_Run (Ok a) c1 t1 => Build_Run (Ok a) c1 t1
    | Build_Run (Raise e) c1 t1 =>
        match h e c1 with
        | Build_Run o c2 t2 => Build_Run o c2 (t1 ++ t2)
        end
    end.

Definition emit (e : effect) : M unit :=
  fun c => {| outcome := Ok tt; w3 := c; effects := [e] |}.

Definition get_w3 : M bool :=
  fun c => {| outcome := Ok c; w3 := c; effects := [] |}.

Definition set_w3 (b : bool) : M unit :=
  fun _ => {| outcome := Ok tt; w3 := b; effects := [] |}.

Definition lift {A} (r : res A) : M A :=
  match r with
  | Ok a => ret a
  | Raise e => raise e
  end.

Declare Scope py_scope.
Delimit Scope py_scope with py.
Notation "x <- m ;; k" := (bind m (fun x => k))
  (at level 61, m at next level, right associativity) : py_scope.
Notation "m ;; k" := (bind m (fun _ => k))
  (at level 61, right associativity) : py_scope.
Local Open Scope py_scope.

Arguments Keccak.keccak256 : simpl never.
Arguments checksum_encode : simpl never.
Arguments to_checksum_address : simpl never.
Arguments to_int_hexstr : simpl never.

Definition log (lvl : level) (msg : message) : M unit := emit (Log lvl msg).

(** A list comprehension [[f x for x in xs]]: left to right, the first
    exception ends it. *)
Fixpoint comprehension {A B} (f : A -> M B) (xs : list A) : M (list B) :=
  match xs with
  | [] => ret []
  | x :: r =>
      y <- f x ;;
      ys <- comprehension f r ;;
      ret (y :: ys)
  end.

(** Python truth value of a list. *)
Definition truthy {A} (l : list A) : bool :=
  match l with [] => false | _ => true end.

(** An int that an f-string formats: from Python 3.11 on the conversion of an
    int of more than 4300 digits to [str] raises [ValueError]
    ([sys.int_max_str_digits]). *)
Definition printable (n : Z) : bool := Z.abs n <? 10 ^ 4300.

(** ** The scanner and the poll loop *)

(** What the outside answers during one pass of the [while True] loop. *)
Record World : Type := {
  (** [connect()] called from [get_latest_block]: [None] when the node
      answers, [Some e] when the [try] block of [connect] raises [e]; a
      built-in [ConnectionError] is the one of line 75, raised after
      [is_connected()] answered [False], any other [e] comes out of the read
      of [eth.chain_id] on line 76 *)
  connect_result : option exn;
  (** [w3.eth.block_number] *)
  block_number_result : res Z;
  (** [w3.eth.get_logs] for a range *)
  get_logs_result : Z -> Z -> res (list LogReceipt);
  (** [processor.process_event] on the event at a position of the batch:
      [True], [False], or an exception it lets through *)
  process_event_result : nat -> res bool;
  (** [connect()] called from the [ConnectionError] handler of the loop *)
  reconnect_result : option exn
}.

Section Listener.

(** [HexBytes.hex()] puts [0x] in front in hexbytes before 1.0 (web3 6) and
    does not from 1.0 on (web3 7). *)
Variable hex_prefixed : bool.

Definition HexBytes_hex (b : bytes) : str :=
  (if hex_prefixed then lit "0x" else []) ++ hexlify b.

(** [BridgeEventScanner._parse_log] *)
Definition _parse_log (log_ : LogReceipt) : M ParsedData :=
  t1 <- lift (getitem (topics log_) 1) ;;
  token_ <- lift (to_checksum_address (lit "0x" ++ last_n 40 (HexBytes_hex t1))) ;;
  t2 <- lift (getitem (topics log_) 2) ;;
  sender_ <- lift (to_checksum_address (lit "0x" ++ last_n 40 (HexBytes_hex t2))) ;;
  t3 <- lift (getitem (topics log_) 3) ;;
  nonce_ <- lift (to_int_hexstr (HexBytes_hex t3)) ;;
  let non_indexed_data := data log_ in
  let amount_ := to_int_bytes (slice 0 32 non_indexed_data) in
  let destinationChainId_ := to_int_bytes (slice 32 64 non_indexed_data) in
  let parsed_data :=
    {| token := token_;
       sender := sender_;
       nonce := nonce_;
       amount := amount_;
       destinationChainId := destinationChainId_;
       txHash := HexBytes_hex (transactionHash log_);
       blockHeight := blockNumber log_ |} in
  log INFO (MsgParsed (txHash parsed_data)) ;;
  ret parsed_data.

Definition eth_get_logs (w : World) (from_block to_block : Z) : M (list LogReceipt) :=
  emit (EthGetLogs from_block to_block) ;;
  lift (get_logs_result w from_block to_block).

(** [BridgeEventScanner.scan_blocks], for a connector whose [w3] is set and
    bounds that are [printable].  Outside of that the call goes another way:
    the f-string of line 139 stands before the [try] and raises [ValueError]
    on a bound that is not [printable], and with [connector.w3] left [None]
    line 147 raises [AttributeError] inside the [try], before a request is
    sent, so that the call returns the empty list. *)
Definition scan_blocks (w : World) (from_block to_block : Z) : M (list ParsedData) :=
  if from_block >? to_block then ret []
  else
    log INFO (MsgScanning from_block to_block) ;;
    try_except
      (logs <- eth_get_logs w from_block to_block ;;
       if truthy logs then
         log INFO (MsgFound (length logs)) ;;
         comprehension _parse_log logs
       else ret [])
      (fun e =>
         if is_BlockNotFound e then
           log WARNING (MsgRangeNotAvailable from_block to_block) ;;
           ret []
         else
           log ERROR (MsgScanError e) ;;
           ret []).

(** A call of [scan_blocks] on any connector and with any bounds: the guard
    of line 136, the f-string of line 139, the read of [connector.w3.eth] on
    line 147 and its handler on lines 155 to 158, and from there
    [scan_blocks] above. *)
Definition scan_blocks_call (w : World) (from_block to_block : Z)
    : M (list ParsedData) :=
  if from_block >? to_block then ret []
  else if negb (printable from_block && printable to_block) then raise ValueError
  else
    connected <- get_w3 ;;
    if connected then scan_blocks w from_block to_block
    else
      log INFO (MsgScanning from_block to_block) ;;
      log ERROR (MsgScanError AttributeError) ;;
      ret [].

(** [BlockchainConnector.connect]: [is_connected()] sends a request to the
    node and answers [False] where the request fails; [eth.chain_id] is a
    second request, sent when the first was answered. *)
Definition connect (r : option exn) : M unit :=
  try_except
    (emit NewProvider ;;
     set_w3 true ;;
     emit Web3IsConnected ;;
     match r with
     | None => emit EthChainId ;; log INFO MsgConnected
     | Some e =>
         if is_ConnectionError e then raise e
         else emit EthChainId ;; raise e
     end)
    (fun e =>
       log ERROR (MsgCouldNotConnect e) ;;
       set_w3 false ;;
       raise e).

(** [BlockchainConnector.get_latest_block] *)
Definition get_latest_block (w : World) : M Z :=
  connected <- get_w3 ;;
  (if negb connected then
     log WARNING MsgNotConnected ;;
     connect (connect_result w)
   else ret tt) ;;
  emit EthBlockNumber ;;
  lift (block_number_result w).

(** [DestinationChainProcessor.process_event], by its result. *)
Definition process_event (r : res bool) (event_data : ParsedData) : M bool :=
  emit (ProcessEvent event_data) ;;
  lift r.

(** [for event in events: ...] of [main], the position counted from [i]. *)
Fixpoint process_events (w : World) (i : nat) (events : list ParsedData) : M unit :=
  match events with
  | [] => ret tt
  | event :: rest =>
      success <- process_event (process_event_result w i) event ;;
      (if negb success then log WARNING (MsgProcessFailed (txHash event))
       else ret tt) ;;
      process_events w (S i) rest
  end.

Variable config : Config.

(** The [try:] suite of the [while True] loop of [main]; the value is
    [last_processed_block] where the suite ends. *)
Definition cycle_try (w : World) (last_processed_block : Z) : M Z :=
  latest_block <- get_latest_block w ;;
  let to_block := latest_block - CONFIRMATIONS_REQUIRED config in
  let from_block := last_processed_block + 1 in
  if from_block <=? to_block then
    events <- scan_blocks w from_block to_block ;;
    (if truthy events then
       log INFO (MsgNewEvents (length events)) ;;
       process_events w 0 events
     else ret tt) ;;
    let last_processed_block := to_block in
    log INFO (MsgScanComplete last_processed_block) ;;
    ret last_processed_block
  else
    log INFO (MsgNoNewBlocks latest_block) ;;
    ret last_processed_block.

(** Its two [except] clauses: [ConnectionError], then [Exception]. *)
Definition cycle_except (w : World) (last_processed_block : Z) (e : exn) : M Z :=
  if is_ConnectionError e then
    log ERROR (MsgConnectionError e) ;;
    emit (Sleep (POLL_INTERVAL_SECONDS config * 2)) ;;
    try_except
      (connect (reconnect_result w))
      (fun conn_e => log ERROR (MsgReconnectFailed conn_e)) ;;
    ret last_processed_block
  else
    log CRITICAL (MsgCritical e) ;;
    ret last_processed_block.

(** One pass of the loop; the value is [last_processed_block] at the end of
    the pass.  [time.sleep] is modelled for an interval that is not negative:
    on a negative [POLL_INTERVAL_SECONDS], which [Config] accepts, it raises
    [ValueError] (lines 320 and 331 are outside the [try]) and [main] ends
    with the cursor that the pass has reached. *)
Definition cycle (w : World) (last_processed_block : Z) : M Z :=
  last <- try_except (cycle_try w last_processed_block)
                     (cycle_except w last_processed_block) ;;
  emit (Sleep (POLL_INTERVAL_SECONDS config)) ;;
  ret last.

(** The first passes of the loop, one [World] each. *)
Fixpoint run (ws : list World) (last_processed_block : Z) : M Z :=
  match ws with
  | [] => ret last_processed_block
  | w :: rest =>
      last <- cycle w last_processed_block ;;
      run rest last
  end.

(** The start of [main] after the components are built: the first cursor,
    or the exception on which [main] logs and returns. *)
Definition initial_cursor (w : World) : M Z :=
  latest_block <- get_latest_block w ;;
  ret (latest_block - CONFIRMATIONS_REQUIRED config - 1).

End Listener.

(** ** Synthetic logs *)

(** [n] as [len] big-endian bytes. *)
Fixpoint int_to_big_endian (len : nat) (n : Z) : bytes :=
  match len with
  | O => []
  | S k => int_to_big_endian k (n / 256) ++ [byte_of_Z n]
  end.

(** The ABI encoding of a [TokensLocked] event: the signature hash in topic
    0, [token] and [sender] right-aligned in 32-byte topics 1 and 2, [nonce]
    in topic 3, [amount] and [destinationChainId] as two 32-byte big-endian
    words of data. *)
Definition encode_log (event_topic : bytes) (token_ sender_ : bytes)
    (nonce_ amount_ destinationChainId_ : Z) (tx : bytes) (height : Z) : LogReceipt :=
  {| topics := [ event_topic;
                 repeat x00 12 ++ token_;
                 repeat x00 12 ++ sender_;
                 int_to_big_endian 32 nonce_ ];
     data := int_to_big_endian 32 amount_ ++ int_to_big_endian 32 destinationChainId_;
     transactionHash := tx;
     blockNumber := height |}.

(** [bytes.fromhex], either case. *)
Fixpoint unhexlify (s : str) : option bytes :=
  match s with
  | [] => Some []
  | a :: b :: r =>
      match hex_val a, hex_val b, unhexlify r with
      | Some x, Some y, Some t => Some (byte_of_Z (16 * x + y) :: t)
      | _, _, _ => None
      end
  | _ => None
  end.

(** The 20 bytes a checksum address stands for. *)
Definition address_bytes (a : str) : option bytes :=
  unhexlify (remove_0x_prefix a).

(** ** Vocabulary of the properties *)

(** The decoder as a function of the log: the result of [_parse_log]. *)
Definition decode (hex_prefixed : bool) (l : LogReceipt) : res ParsedData :=
  outcome (_parse_log hex_prefixed l true).

(** A log on which [_parse_log] raises. *)
Definition malformed (hex_prefixed : bool) (l : LogReceipt) : bool :=
  match decode hex_prefixed l with
  | Ok _ => false
  | Raise _ => true
  end.

(** The events of the logs of a batch that decode, in order. *)
Definition decoded (hex_prefixed : bool) (logs : list LogReceipt) : list ParsedData :=
  flat_map (fun l => match decode hex_prefixed l with
                     | Ok d => [d]
                     | Raise _ => []
                     end) logs.

Definition is_log_record (e : effect) : bool :=
  match e with Log _ _ => true | _ => false end.

(** The ranges queried with [eth_getLogs], in order. *)
Definition scanned_ranges (t : list effect) : list (Z * Z) :=
  flat_map (fun e => match e with
                     | EthGetLogs a b => [(a, b)]
                     | _ => []
                     end) t.

Definition covers (r : Z * Z) (h : Z) : bool :=
  (fst r <=? h) && (h <=? snd r).

(** In how many of the ranges a height lies. *)
Definition coverage (rs : list (Z * Z)) (h : Z) : nat :=
  length (filter (fun r => covers r h) rs).

(** The same world with a node that finds no log in any range. *)
Definition no_logs (w : World) : World :=
  {| connect_result := connect_result w;
     block_number_result := block_number_result w;
     get_logs_result := fun _ _ => Ok [];
     process_event_result := process_event_result w;
     reconnect_result := reconnect_result w |}.

(** A scan that failed: the query raised, or a log of the batch did not
    decode. *)
Definition scan_failed (hex_prefixed : bool) (w : World) (from_block to_block : Z) : Prop :=
  match get_logs_result w from_block to_block with
  | Raise _ => True
  | Ok logs => existsb (malformed hex_prefixed) logs = true
  end.

(** ** Statements of the specification that the code does not meet *)


(** Section 4.1, "exactly 4 topic slots and at least 64 bytes of data
    payload; fewer is a DecodeError". *)
Definition rejects_truncated (hex_prefixed : bool) : Prop :=
  forall (l : LogReceipt) (c : bool),
    (length (topics l) < 4)%nat \/ (length (data l) < 64)%nat ->
    exists e, outcome (_parse_log hex_prefixed l c) = Raise e.

(** Section 4.3, "unconditionally sets cursor = toHeight once Scanning
    completed". *)
Definition commits_when_scan_returns (hex_prefixed : bool) (config : Config) : Prop :=
  forall (w : World) (last latest : Z) (c : bool) (events : list ParsedData),
    outcome (get_latest_block w c) = Ok latest ->
    last + 1 <= latest - CONFIRMATIONS_REQUIRED config ->
    outcome (scan_blocks hex_prefixed w (last + 1)
               (latest - CONFIRMATIONS_REQUIRED config)
               (w3 (get_latest_block w c))) = Ok events ->
    outcome (cycle hex_prefixed config w last c)
    = Ok (latest - CONFIRMATIONS_REQUIRED config).

(** Lines 140 to 158 read as "scan_blocks never raises: for every input
    range". *)
Definition scan_never_raises (hex_prefixed : bool) : Prop :=
  forall (w : World) (from_block to_block : Z) (c : bool),
    exists events,
      outcome (scan_blocks_call hex_prefixed w from_block to_block c) = Ok events.

(** Sections 7 and 8, "RangeUnavailable: cursor does not advance; retried
    next cycle with the same fromHeight". *)
Definition keeps_cursor_when_range_unavailable
    (hex_prefixed : bool) (config : Config) : Prop :=
  forall (w : World) (last latest : Z) (c : bool),
    outcome (get_latest_block w c) = Ok latest ->
    last + 1 <= latest - CONFIRMATIONS_REQUIRED config ->
    get_logs_result w (last + 1) (latest - CONFIRMATIONS_REQUIRED config)
    = Raise BlockNotFound ->
    outcome (cycle hex_prefixed config w last c) = Ok last.

(** ** Sample inputs *)

Module Sample.

Definition config : Config :=
  {| POLL_INTERVAL_SECONDS := 15; CONFIRMATIONS_REQUIRED := 6 |}.

(** [w3.keccak(text="TokensLocked(address,address,uint256,uint256,uint256)")] *)
Definition event_topic : bytes :=
  Keccak.keccak256
    (bytes_of_str (lit "TokensLocked(address,address,uint256,uint256,uint256)")).

(** 0x5aAeb6053F3E94C9b9A09f33669435E7Ef1BeAed and
    0xfB6916095ca1df60bB79Ce92cE3Ea74c37c5d359 *)
Definition token_address : bytes :=
  [x5a; xae; xb6; x05; x3f; x3e; x94; xc9; xb9; xa0;
   x9f; x33; x66; x94; x35; xe7; xef; x1b; xea; xed].

Definition sender_address : bytes :=
  [xfb; x69; x16; x09; x5c; xa1; xdf; x60; xbb; x79;
   xce; x92; xce; x3e; xa7; x4c; x37; xc5; xd3; x59].

Definition tx_hash : bytes := repeat xab 32.

(** A well-formed log: nonce 42, amount 1000000, destination chain 1. *)
Definition good_log (height : Z) : LogReceipt :=
  encode_log event_topic token_address sender_address 42 1000000 1 tx_hash height.

(** The same log cut after its third topic. *)
Definition three_topic_log (height : Z) : LogReceipt :=
  {| topics := firstn 3 (topics (good_log height));
     data := data (good_log height);
     transactionHash := tx_hash;
     blockNumber := height |}.

(** The same log with no data payload at all. *)
Definition no_data_log (height : Z) : LogReceipt :=
  {| topics := topics (good_log height);
     data := [];
     transactionHash := tx_hash;
     blockNumber := height |}.

(** A world with a connected node at head [head]. *)
Definition world (head : Z) (logs : res (list LogReceipt)) (sink : res bool) : World :=
  {| connect_result := None;
     block_number_result := Ok head;
     get_logs_result := fun _ _ => logs;
     process_event_result := fun _ => sink;
     reconnect_result := None |}.

End Sample.

(** ** The rest of the file *)

(** *** [get_config_value_6708] *)

(** [str.isspace()] on one character below U+0100. *)
Definition is_space (c : ascii) : bool :=
  let n := Z.of_N (N_of_ascii c) in
  ((9 <=? n) && (n <=? 13)) || ((28 <=? n) && (n <=? 32))
  || (n =? 133) || (n =? 160).

Fixpoint lstrip (s : str) : str :=
  match s with
  | c :: r => if is_space c then lstrip r else s
  | [] => []
  end.

Definition rstrip (s : str) : str := rev (lstrip (rev s)).

(** [s.strip()] *)
Definition strip (s : str) : str := lstrip (rstrip s).

(** [s.startswith(prefix)] *)
Fixpoint startswith (s prefix : str) {struct prefix} : bool :=
  match prefix, s with
  | [], _ => true
  | p :: ps, c :: cs => Ascii.eqb c p && startswith cs ps
  | _ :: _, [] => false
  end.

(** [s.split(sep)] for a separator of one character: one more piece than
    there are separators. *)
Fixpoint split (sep : ascii) (s : str) : list str :=
  match s with
  | [] => [[]]
  | c :: r =>
      if Ascii.eqb c sep then [] :: split sep r
      else match split sep r with
           | piece :: pieces => (c :: piece) :: pieces
           | [] => [[c]]
           end
  end.

(** The [for line in f] loop of [get_config_value_6708] over the lines the
    file yields. *)
Fixpoint config_lookup (lines : list str) (key : str) : res (option str) :=
  match lines with
  | [] => Ok None
  | line :: rest =>
      if startswith line key then
        match getitem (split "="%char line) 1 with
        | Ok v => Ok (Some (strip v))
        | Raise e => Raise e
        end
      else config_lookup rest key
  end.

(** [get_config_value_6708(key)]: [file] is what [open('config.ini', 'r')]
    gives, the lines of the file (each with its line end) or the exception
    of [open]; [None] of Python is [None]. *)
Definition get_config_value_6708 (file : res (list str)) (key : str) : res (option str) :=
  match file with
  | Ok lines => config_lookup lines key
  | Raise e => Raise e
  end.

(** *** [Config.validate] *)

(** The four attributes [validate] requires, as [os.getenv] left them:
    [None] when the variable is not set. *)
Record ConfigVars : Type := {
  SOURCE_CHAIN_RPC : option str;
  DESTINATION_CHAIN_RPC : option str;
  BRIDGE_CONTRACT_ADDRESS : option str;
  PRIVATE_KEY : option str
}.

(** [not value] for [None] or a [str]. *)
Definition not_set (v : option str) : bool :=
  match v with
  | None => true
  | Some [] => true
  | Some (_ :: _) => false
  end.

(** [Config.validate]: the attributes after it, or the exception; the
    object is assigned to only in the last statement. *)
Definition validate (cfg : ConfigVars) : res ConfigVars :=
  if not_set (SOURCE_CHAIN_RPC cfg) then Raise ValueError
  else if not_set (DESTINATION_CHAIN_RPC cfg) then Raise ValueError
  else if not_set (BRIDGE_CONTRACT_ADDRESS cfg) then Raise ValueError
  else if not_set (PRIVATE_KEY cfg) then Raise ValueError
  else
    match BRIDGE_CONTRACT_ADDRESS cfg with
    | Some a =>
        match to_checksum_address a with
        | Ok a' =>
            Ok {| SOURCE_CHAIN_RPC := SOURCE_CHAIN_RPC cfg;
                  DESTINATION_CHAIN_RPC := DESTINATION_CHAIN_RPC cfg;
                  BRIDGE_CONTRACT_ADDRESS := Some a';
                  PRIVATE_KEY := PRIVATE_KEY cfg |}
        | Raise e => Raise e
        end
    | None => Raise ValueError
    end.

(** *** The result of [DestinationChainProcessor.process_event] *)

(** A value that [response.json()] returns. *)
#[local] Unset Elimination Schemes.
#[local] Set Elimination Schemes.








(** *** Vocabulary *)

(** The events handed to [process_event], in order. *)
Definition sink_calls (t : list effect) : list ParsedData :=
  flat_map (fun e => match e with
                     | ProcessEvent ev => [ev]
                     | _ => []
                     end) t.

(** The seconds slept. *)
Definition total_sleep (t : list effect) : Z :=
  fold_right (fun e acc => match e with
                           | Sleep n => n + acc
                           | _ => acc
                           end) 0 t.

(** The requests sent to the node. *)
Definition is_rpc (e : effect) : bool :=
  match e with
  | Web3IsConnected | EthChainId | EthBlockNumber | EthGetLogs _ _ => true
  | _ => false
  end.



(** * Properties *)

(** ** Sequences *)

Lemma last_n_app {A} (n : nat) (a b : list A) :
  length b = n -> last_n n (a ++ b) = b.
Proof.
  intros <-. unfold last_n. rewrite length_app.
  replace (length a + length b - length b)%nat with (length a + 0)%nat by lia.
  rewrite skipn_app, Nat.add_0_r, skipn_all.
  replace (length a - length a)%nat with 0%nat by lia. reflexivity.
Qed.

Lemma last_n_split {A} (n : nat) (s : list A) :
  s = firstn (length s - n) s ++ last_n n s.
Proof. unfold last_n. symmetry. apply firstn_skipn. Qed.

Lemma length_last_n {A} (n : nat) (s : list A) :
  (n <= length s)%nat -> length (last_n n s) = n.
Proof. intros H. unfold last_n. rewrite length_skipn. lia. Qed.

Lemma slice_0_app {A} (n : nat) (a b : list A) :
  length a = n -> slice 0 n (a ++ b) = a.
Proof.
  intros <-. unfold slice. cbn [skipn]. rewrite Nat.sub_0_r.
  rewrite firstn_app, Nat.sub_diag, firstn_all. cbn. apply app_nil_r.
Qed.

Lemma slice_app_all {A} (n m : nat) (a b : list A) :
  length a = n -> (length b + n = m)%nat -> slice n m (a ++ b) = b.
Proof.
  intros <- <-. unfold slice.
  rewrite skipn_app, skipn_all, Nat.sub_diag. cbn [skipn app].
  replace (length b + length a - length a)%nat with (length b) by lia.
  apply firstn_all.
Qed.

(** ** Bytes and hexadecimal text *)

Lemma byte_val_range (x : byte) : 0 <= byte_val x < 256.
Proof. unfold byte_val. pose proof (Byte.to_N_bounded x). lia. Qed.

Lemma byte_of_Z_val (x : byte) : byte_of_Z (byte_val x) = x.
Proof. destruct x; reflexivity. Qed.

Lemma byte_val_of_Z (z : Z) : byte_val (byte_of_Z z) = z mod 256.
Proof.
  unfold byte_of_Z, byte_val.
  pose proof (Z.mod_pos_bound z 256 ltac:(lia)) as Hb.
  destruct (Byte.of_N (Z.to_N (z mod 256))) as [b|] eqn:E.
  - apply Byte.to_of_N in E. rewrite E. lia.
  - apply Byte.of_N_None_iff in E. lia.
Qed.

Lemma hex_val_high (x : byte) :
  hex_val (hex_digit (byte_val x / 16)) = Some (byte_val x / 16).
Proof. destruct x; reflexivity. Qed.

Lemma hex_val_low (x : byte) :
  hex_val (hex_digit (byte_val x mod 16)) = Some (byte_val x mod 16).
Proof. destruct x; reflexivity. Qed.

Lemma lower_high (x : byte) :
  lower (hex_digit (byte_val x / 16)) = hex_digit (byte_val x / 16).
Proof. destruct x; reflexivity. Qed.

Lemma lower_low (x : byte) :
  lower (hex_digit (byte_val x mod 16)) = hex_digit (byte_val x mod 16).
Proof. destruct x; reflexivity. Qed.

Lemma hexlify_app (a b : bytes) : hexlify (a ++ b) = hexlify a ++ hexlify b.
Proof. induction a as [|x a IH]; cbn; [reflexivity | now rewrite IH]. Qed.

Lemma length_hexlify (b : bytes) : length (hexlify b) = (2 * length b)%nat.
Proof. induction b as [|x b IH]; cbn [hexlify length]; lia. Qed.

Lemma lower_hexlify (b : bytes) : map lower (hexlify b) = hexlify b.
Proof.
  induction b as [|x b IH]; cbn [hexlify map]; [reflexivity|].
  now rewrite lower_high, lower_low, IH.
Qed.

Lemma is_hex_hexlify (b : bytes) : forallb is_hex_char (hexlify b) = true.
Proof.
  induction b as [|x b IH]; cbn [hexlify forallb]; [reflexivity|].
  unfold is_hex_char at 1 2. now rewrite hex_val_high, hex_val_low, IH.
Qed.

Lemma remove_0x_prefix_hexlify (b : bytes) :
  remove_0x_prefix (hexlify b) = hexlify b.
Proof. destruct b as [|x b]; [reflexivity|]. destruct x; reflexivity. Qed.

Lemma hex_digits_val_hexlify (b : bytes) (acc : Z) :
  hex_digits_val acc (hexlify b)
  = Some (fold_left (fun a x => a * 256 + byte_val x) b acc).
Proof.
  revert acc. induction b as [|x b IH]; intros acc; cbn [hexlify hex_digits_val fold_left].
  - reflexivity.
  - rewrite hex_val_high, hex_val_low, IH. do 2 f_equal.
    pose proof (Z.div_mod (byte_val x) 16 ltac:(lia)). lia.
Qed.

Lemma big_endian_snoc (b : bytes) (x : byte) :
  big_endian_to_int (b ++ [x]) = big_endian_to_int b * 256 + byte_val x.
Proof. unfold big_endian_to_int. now rewrite fold_left_app. Qed.

Lemma length_int_to_big_endian (len : nat) (n : Z) :
  length (int_to_big_endian len n) = len.
Proof.
  revert n. induction len as [|k IH]; intros n; cbn [int_to_big_endian].
  - reflexivity.
  - rewrite length_app, IH. cbn. lia.
Qed.

Lemma big_endian_int_to_big_endian (len : nat) (n : Z) :
  big_endian_to_int (int_to_big_endian len n) = n mod 256 ^ Z.of_nat len.
Proof.
  revert n. induction len as [|k IH]; intros n; cbn [int_to_big_endian].
  - cbn. now rewrite Z.mod_1_r.
  - rewrite big_endian_snoc, IH, byte_val_of_Z.
    rewrite Nat2Z.inj_succ, Z.pow_succ_r by lia.
    rewrite Z.rem_mul_r by lia. lia.
Qed.

Lemma big_endian_word (n : Z) :
  0 <= n < 2 ^ 256 -> big_endian_to_int (int_to_big_endian 32 n) = n.
Proof.
  intros H. rewrite big_endian_int_to_big_endian.
  change (256 ^ Z.of_nat 32) with (2 ^ 256). now apply Z.mod_small.
Qed.

(** ** The helpers of [Web3] *)

Lemma to_checksum_address_hexlify (b : bytes) :
  length b = 20%nat ->
  to_checksum_address (lit "0x" ++ hexlify b) = Ok (checksum_encode (hexlify b)).
Proof.
  intros Hlen. unfold to_checksum_address.
  change (remove_0x_prefix (lit "0x" ++ hexlify b)) with (hexlify b).
  rewrite lower_hexlify, is_hex_hexlify, length_hexlify, Hlen. reflexivity.
Qed.

Lemma to_int_hexstr_hexlify (b : bytes) :
  b <> [] -> to_int_hexstr (hexlify b) = Ok (big_endian_to_int b).
Proof.
  intros Hne. unfold to_int_hexstr. rewrite remove_0x_prefix_hexlify.
  destruct b as [|x b]; [contradiction|].
  change (hexlify (x :: b)) with
    (hex_digit (byte_val x / 16) :: hex_digit (byte_val x mod 16) :: hexlify b).
  cbv iota beta.
  change (hex_digit (byte_val x / 16) :: hex_digit (byte_val x mod 16) :: hexlify b)
    with (hexlify (x :: b)).
  now rewrite hex_digits_val_hexlify.
Qed.

Lemma to_int_hexstr_prefixed (s : str) :
  to_int_hexstr (lit "0x" ++ s) = 
  match s with
  | [] => Raise ValueError
  | _ => match hex_digits_val 0 s with Some n => Ok n | None => Raise ValueError end
  end.
Proof. destruct s; reflexivity. Qed.

Lemma cased_hex_val (h : ascii) (x : byte) :
  let cased c := match hex_val h with
                 | Some n => if 7 <? n then upper c else c
                 | None => c
                 end in
  hex_val (cased (hex_digit (byte_val x / 16))) = Some (byte_val x / 16) /\
  hex_val (cased (hex_digit (byte_val x mod 16))) = Some (byte_val x mod 16).
Proof.
  cbv zeta. destruct (hex_val h) as [n|]; [destruct (7 <? n)|];
    destruct x; split; reflexivity.
Qed.

Lemma byte_of_nibbles (x : byte) :
  byte_of_Z (16 * (byte_val x / 16) + byte_val x mod 16) = x.
Proof. destruct x; reflexivity. Qed.

Lemma unhexlify_hexlify (b : bytes) : unhexlify (hexlify b) = Some b.
Proof.
  induction b as [|x b IH]; cbn [hexlify unhexlify]; [reflexivity|].
  now rewrite hex_val_high, hex_val_low, IH, byte_of_nibbles.
Qed.

(** Casing does not change the bytes an address reads as. *)
Lemma unhexlify_checksum_case (b : bytes) (hash : str) :
  unhexlify (checksum_case (hexlify b) hash) = Some b.
Proof.
  revert hash. induction b as [|x b IH]; intros hash.
  - destruct hash; reflexivity.
  - destruct hash as [|h1 [|h2 hash]]; cbn [hexlify checksum_case unhexlify].
    + now rewrite hex_val_high, hex_val_low, unhexlify_hexlify, byte_of_nibbles.
    + destruct (cased_hex_val h1 x) as [-> _].
      replace (checksum_case (hexlify b) []) with (hexlify b)
        by (destruct (hexlify b); reflexivity).
      now rewrite hex_val_low, unhexlify_hexlify, byte_of_nibbles.
    + destruct (cased_hex_val h1 x) as [-> _].
      destruct (cased_hex_val h2 x) as [_ ->].
      now rewrite IH, byte_of_nibbles.
Qed.

Lemma address_bytes_checksum (b : bytes) :
  address_bytes (checksum_encode (hexlify b)) = Some b.
Proof.
  unfold address_bytes, checksum_encode.
  change (remove_0x_prefix (lit "0x" ++ ?s)) with s.
  apply unhexlify_checksum_case.
Qed.

(** ** The decoder *)

Section Decoder.

Variable hex_prefixed : bool.

Arguments HexBytes_hex : simpl never.

(** [_parse_log] leaves [w3] alone and its only effect is the log record of
    a decoded event. *)
Lemma parse_log_run (l : LogReceipt) (c : bool) :
  _parse_log hex_prefixed l c
  = {| outcome := decode hex_prefixed l;
       w3 := c;
       effects := match decode hex_prefixed l with
                  | Ok d => [Log INFO (MsgParsed (txHash d))]
                  | Raise _ => []
                  end |}.
Proof.
  unfold decode, _parse_log, bind, lift, log, emit, ret, raise.
  destruct (getitem (topics l) 1); cbn; [|reflexivity].
  destruct (to_checksum_address _); cbn; [|reflexivity].
  destruct (getitem (topics l) 2); cbn; [|reflexivity].
  destruct (to_checksum_address _); cbn; [|reflexivity].
  destruct (getitem (topics l) 3); cbn; [|reflexivity].
  destruct (to_int_hexstr _); cbn; reflexivity.
Qed.

Lemma topic_address (t : bytes) :
  (20 <= length t)%nat ->
  last_n 40 (HexBytes_hex hex_prefixed t) = hexlify (last_n 20 t).
Proof.
  intros Hlen. unfold HexBytes_hex.
  rewrite (last_n_split 20 t) at 1. rewrite hexlify_app, app_assoc.
  apply last_n_app. rewrite length_hexlify, length_last_n; lia.
Qed.

Lemma topic_integer (t : bytes) :
  t <> [] -> to_int_hexstr (HexBytes_hex hex_prefixed t) = Ok (big_endian_to_int t).
Proof.
  intros Hne. unfold HexBytes_hex. destruct hex_prefixed.
  - rewrite to_int_hexstr_prefixed.
    destruct t as [|x t]; [contradiction|].
    change (hexlify (x :: t)) with
      (hex_digit (byte_val x / 16) :: hex_digit (byte_val x mod 16) :: hexlify t).
    cbv iota beta.
    change (hex_digit (byte_val x / 16) :: hex_digit (byte_val x mod 16) :: hexlify t)
      with (hexlify (x :: t)).
    now rewrite hex_digits_val_hexlify.
  - now apply to_int_hexstr_hexlify.
Qed.

(** What [_parse_log] returns on a log with four topics of which the first
    two indexed ones hold at least 20 bytes and the third at least one. *)
Lemma decode_ok (l : LogReceipt) (t0 t1 t2 t3 : bytes) (rest : list bytes) :
  topics l = t0 :: t1 :: t2 :: t3 :: rest ->
  (20 <= length t1)%nat -> (20 <= length t2)%nat -> t3 <> [] ->
  decode hex_prefixed l
  = Ok {| token := checksum_encode (hexlify (last_n 20 t1));
          sender := checksum_encode (hexlify (last_n 20 t2));
          nonce := big_endian_to_int t3;
          amount := big_endian_to_int (slice 0 32 (data l));
          destinationChainId := big_endian_to_int (slice 32 64 (data l));
          txHash := HexBytes_hex hex_prefixed (transactionHash l);
          blockHeight := blockNumber l |}.
Proof.
  intros Ht H1 H2 H3. unfold decode, _parse_log, bind, lift, log, emit, ret, raise.
  rewrite Ht. cbn [getitem nth_error outcome w3].
  rewrite (@topic_address t1 H1), (@topic_address t2 H2), (@topic_integer t3 H3).
  rewrite !to_checksum_address_hexlify by (apply length_last_n; lia).
  reflexivity.
Qed.

Lemma decode_few_topics (l : LogReceipt) :
  (length (topics l) < 4)%nat -> exists e, decode hex_prefixed l = Raise e.
Proof.
  intros Hlen. unfold decode, _parse_log, bind, lift, log, emit, ret, raise.
  destruct (topics l) as [|t0 [|t1 [|t2 [|t3 rest]]]]; cbn in Hlen; try lia;
    cbn [getitem nth_error outcome w3]; eauto.
  - destruct (to_checksum_address _); cbn; eauto.
  - destruct (to_checksum_address _); cbn; eauto.
    destruct (to_checksum_address _); cbn; eauto.
Qed.

End Decoder.

(** ** Runs *)

Lemma outcome_bind {A B} (m : M A) (k : A -> M B) (c : bool) :
  outcome (bind m k c)
  = match outcome (m c) with
    | Ok a => outcome (k a (w3 (m c)))
    | Raise e => Raise e
    end.
Proof.
  unfold bind. destruct (m c) as [[a|e] c1 t1]; cbn; [|reflexivity].
  destruct (k a c1); reflexivity.
Qed.

Lemma w3_bind {A B} (m : M A) (k : A -> M B) (c : bool) :
  w3 (bind m k c)
  = match outcome (m c) with
    | Ok a => w3 (k a (w3 (m c)))
    | Raise _ => w3 (m c)
    end.
Proof.
  unfold bind. destruct (m c) as [[a|e] c1 t1]; cbn; [|reflexivity].
  destruct (k a c1); reflexivity.
Qed.

Lemma effects_bind {A B} (m : M A) (k : A -> M B) (c : bool) :
  effects (bind m k c)
  = effects (m c) ++ match outcome (m c) with
                     | Ok a => effects (k a (w3 (m c)))
                     | Raise _ => []
                     end.
Proof.
  unfold bind. destruct (m c) as [[a|e] c1 t1]; cbn.
  - destruct (k a c1); reflexivity.
  - now rewrite app_nil_r.
Qed.

Lemma outcome_try {A} (m : M A) (h : exn -> M A) (c : bool) :
  outcome (try_except m h c)
  = match outcome (m c) with
    | Ok a => Ok a
    | Raise e => outcome (h e (w3 (m c)))
    end.
Proof.
  unfold try_except. destruct (m c) as [[a|e] c1 t1]; cbn; [reflexivity|].
  destruct (h e c1); reflexivity.
Qed.

Lemma effects_try {A} (m : M A) (h : exn -> M A) (c : bool) :
  effects (try_except m h c)
  = effects (m c) ++ match outcome (m c) with
                     | Ok _ => []
                     | Raise e => effects (h e (w3 (m c)))
                     end.
Proof.
  unfold try_except. destruct (m c) as [[a|e] c1 t1]; cbn.
  - now rewrite app_nil_r.
  - destruct (h e c1); reflexivity.
Qed.

Lemma scanned_ranges_app (t u : list effect) :
  scanned_ranges (t ++ u) = scanned_ranges t ++ scanned_ranges u.
Proof. unfold scanned_ranges. apply flat_map_app. Qed.

Lemma scanned_ranges_log_records (t : list effect) :
  forallb is_log_record t = true -> scanned_ranges t = [].
Proof.
  induction t as [|e t IH]; cbn; [reflexivity|].
  destruct e; cbn; try discriminate. exact IH.
Qed.

(** ** The scanner *)

Section Scanner.

Variable hex_prefixed : bool.

Lemma comprehension_w3 (logs : list LogReceipt) (c : bool) :
  w3 (comprehension (_parse_log hex_prefixed) logs c) = c.
Proof.
  revert c. induction logs as [|l logs IH]; intros c; cbn [comprehension].
  - reflexivity.
  - rewrite w3_bind, parse_log_run. cbn [outcome w3].
    destruct (decode hex_prefixed l); [|reflexivity].
    rewrite w3_bind, IH.
    destruct (outcome (comprehension _ logs c)); reflexivity.
Qed.

Lemma comprehension_effects (logs : list LogReceipt) (c : bool) :
  forallb is_log_record (effects (comprehension (_parse_log hex_prefixed) logs c)) = true.
Proof.
  revert c. induction logs as [|l logs IH]; intros c; cbn [comprehension].
  - reflexivity.
  - rewrite effects_bind, parse_log_run. cbn [outcome w3 effects].
    destruct (decode hex_prefixed l); [|reflexivity].
    rewrite effects_bind. cbn [app forallb is_log_record andb].
    rewrite forallb_app, IH.
    destruct (outcome (comprehension _ logs c)); reflexivity.
Qed.

Lemma comprehension_outcome (logs : list LogReceipt) (c : bool) :
  if existsb (malformed hex_prefixed) logs
  then exists e, outcome (comprehension (_parse_log hex_prefixed) logs c) = Raise e
  else outcome (comprehension (_parse_log hex_prefixed) logs c)
       = Ok (decoded hex_prefixed logs).
Proof.
  revert c. induction logs as [|l logs IH]; intros c; cbn [comprehension existsb].
  - reflexivity.
  - rewrite outcome_bind, parse_log_run. cbn [outcome w3].
    unfold malformed at 1, decoded. cbn [flat_map].
    destruct (decode hex_prefixed l) as [d|e]; cbn [orb].
    + rewrite outcome_bind. specialize (IH c).
      destruct (existsb (malformed hex_prefixed) logs).
      * destruct IH as [e ->]. eauto.
      * rewrite IH. reflexivity.
    + eauto.
Qed.

(** [scan_blocks] on a range that is not empty: it returns, leaves [w3]
    alone, makes the one query, and apart from it only writes log records. *)
Lemma scan_blocks_run (w : World) (from_block to_block : Z) (c : bool) :
  from_block <= to_block ->
  exists tail,
    scan_blocks hex_prefixed w from_block to_block c
    = {| outcome :=
           Ok match get_logs_result w from_block to_block with
              | Ok logs => if existsb (malformed hex_prefixed) logs then []
                           else decoded hex_prefixed logs
              | Raise _ => []
              end;
         w3 := c;
         effects := Log INFO (MsgScanning from_block to_block)
                    :: EthGetLogs from_block to_block :: tail |}
    /\ forallb is_log_record tail = true.
Proof.
  intros Hle. unfold scan_blocks.
  destruct (from_block >? to_block) eqn:Hgt; [lia|]. clear Hgt.
  unfold eth_get_logs.
  destruct (get_logs_result w from_block to_block) as [logs|e] eqn:Hq.
  - destruct logs as [|l logs].
    + eexists. split; reflexivity.
    + pose proof (comprehension_outcome (l :: logs) c) as Ho.
      pose proof (comprehension_effects (l :: logs) c) as He.
      pose proof (comprehension_w3 (l :: logs) c) as Hw.
      unfold bind, try_except, log, emit, lift, ret.
      cbn -[comprehension existsb decoded length].
      destruct (comprehension (_parse_log hex_prefixed) (l :: logs) c)
        as [o c' eff].
      cbn [outcome w3 effects] in *. subst c'.
      destruct (existsb (malformed hex_prefixed) (l :: logs)).
      * destruct Ho as [e ->]. cbn -[length].
        destruct (is_BlockNotFound e); cbn -[length]; eexists;
          (split; [reflexivity|]); cbn; rewrite forallb_app, He; reflexivity.
      * rewrite Ho. cbn -[length decoded]. eexists; split; [reflexivity|]. exact He.
  - unfold bind, try_except, log, emit, lift, ret, raise. cbn.
    destruct (is_BlockNotFound e); cbn; eexists; split; reflexivity.
Qed.

(** [scan_blocks] on an empty range. *)
Lemma scan_blocks_skip (w : World) (from_block to_block : Z) (c : bool) :
  from_block > to_block ->
  scan_blocks hex_prefixed w from_block to_block c
  = {| outcome := Ok []; w3 := c; effects := [] |}.
Proof.
  intros Hgt. unfold scan_blocks.
  destruct (Z.gtb_spec from_block to_block); [reflexivity | lia].
Qed.

End Scanner.

(** ** The poll loop *)

Section Loop.

Variable hex_prefixed : bool.
Variable config : Config.

Local Notation "'CONF'" := (CONFIRMATIONS_REQUIRED config).

Lemma get_latest_block_ranges (w : World) (c : bool) :
  scanned_ranges (effects (get_latest_block w c)) = [].
Proof.
  unfold get_latest_block, connect, bind, try_except, log, emit, lift, ret,
    raise, get_w3, set_w3.
  destruct c, (connect_result w) as [[]|], (block_number_result w); reflexivity.
Qed.

Lemma process_event_run (r : res bool) (ev : ParsedData) (c : bool) :
  process_event r ev c
  = {| outcome := r; w3 := c; effects := [ProcessEvent ev] |}.
Proof. destruct r; reflexivity. Qed.

Lemma process_events_w3 (w : World) (events : list ParsedData) (i : nat) (c : bool) :
  w3 (process_events w i events c) = c.
Proof.
  revert i c. induction events as [|ev events IH]; intros i c; cbn [process_events].
  - reflexivity.
  - rewrite w3_bind, process_event_run. cbn [outcome w3].
    destruct (process_event_result w i) as [b|e]; [|reflexivity].
    rewrite w3_bind. destruct b; cbn; apply IH.
Qed.

Lemma process_events_ranges (w : World) (events : list ParsedData) (i : nat) (c : bool) :
  scanned_ranges (effects (process_events w i events c)) = [].
Proof.
  revert i c. induction events as [|ev events IH]; intros i c; cbn [process_events].
  - reflexivity.
  - rewrite effects_bind, process_event_run. cbn [outcome w3 effects].
    destruct (process_event_result w i) as [b|e]; [|reflexivity].
    rewrite effects_bind. destruct b; cbn; apply IH.
Qed.

(** The events are all handed over when no call of the sink raises. *)
Lemma process_events_ok (w : World) (events : list ParsedData) (i : nat) (c : bool) :
  (forall j, (j < length events)%nat ->
             exists b, process_event_result w (i + j) = Ok b) ->
  outcome (process_events w i events c) = Ok tt.
Proof.
  revert i c. induction events as [|ev events IH]; intros i c Hsink;
    cbn [process_events].
  - reflexivity.
  - rewrite outcome_bind, process_event_run. cbn [outcome w3].
    destruct (Hsink 0%nat ltac:(cbn; lia)) as [b Hb].
    rewrite Nat.add_0_r in Hb. rewrite Hb.
    rewrite outcome_bind.
    assert (outcome (process_events w (S i) events c) = Ok tt) as Hrest.
    { apply IH. intros j Hj. destruct (Hsink (S j) ltac:(cbn; lia)) as [b' Hb'].
      exists b'. now rewrite <- Hb', Nat.add_succ_r. }
    destruct b; cbn; exact Hrest.
Qed.

(** Either handler of the loop ends the pass with the cursor it began
    with, and queries no range. *)
Lemma cycle_except_run (w : World) (last : Z) (e : exn) (c : bool) :
  outcome (cycle_except config w last e c) = Ok last /\
  scanned_ranges (effects (cycle_except config w last e c)) = [].
Proof.
  unfold cycle_except, connect, bind, try_except, log, emit, lift, ret, raise,
    get_w3, set_w3.
  destruct (is_ConnectionError e), (reconnect_result w) as [[]|]; split; reflexivity.
Qed.

(** The ranges the [try] suite queries: the one from the cursor to the
    confirmed head when it is not empty, and no other. *)
Lemma cycle_try_ranges (w : World) (last : Z) (c : bool) :
  scanned_ranges (effects (cycle_try hex_prefixed config w last c))
  = match outcome (get_latest_block w c) with
    | Ok latest =>
        if last + 1 <=? latest - CONF then [(last + 1, latest - CONF)] else []
    | Raise _ => []
    end.
Proof.
  unfold cycle_try. rewrite effects_bind, scanned_ranges_app.
  rewrite get_latest_block_ranges. cbn [app].
  destruct (outcome (get_latest_block w c)) as [latest|e]; [|reflexivity].
  destruct (last + 1 <=? latest - CONF) eqn:Hle.
  - apply Z.leb_le in Hle.
    destruct (scan_blocks_run hex_prefixed w (w3 (get_latest_block w c)) Hle)
      as (tail & Hscan & Htail).
    rewrite effects_bind, Hscan. cbn [outcome w3 effects].
    rewrite effects_bind, !scanned_ranges_app.
    change (scanned_ranges (Log INFO (MsgScanning (last + 1) (latest - CONF))
                            :: EthGetLogs (last + 1) (latest - CONF) :: tail))
      with ((last + 1, latest - CONF) :: scanned_ranges tail).
    rewrite (scanned_ranges_log_records _ Htail).
    set (events := match get_logs_result w (last + 1) (latest - CONF) with
                   | Ok logs => if existsb (malformed hex_prefixed) logs then []
                                else decoded hex_prefixed logs
                   | Raise _ => []
                   end).
    assert (scanned_ranges
              (effects ((if truthy events
                         then log INFO (MsgNewEvents (length events));;
                              process_events w 0 events
                         else ret tt) (w3 (get_latest_block w c)))) = []) as ->.
    { destruct events; [reflexivity|]. cbn [truthy].
      rewrite effects_bind. cbn [log emit outcome effects w3].
      rewrite scanned_ranges_app. apply process_events_ranges. }
    destruct (outcome _); reflexivity.
  - rewrite effects_bind. reflexivity.
Qed.

(** When the [try] suite ends normally, the cursor is the one it began
    with, or the head was read, the range up to the confirmed head was not
    empty, it is the one range queried, and the cursor is its end. *)
Lemma cycle_try_ok (w : World) (last a : Z) (c : bool) :
  outcome (cycle_try hex_prefixed config w last c) = Ok a ->
  a = last \/
  exists latest,
    outcome (get_latest_block w c) = Ok latest /\
    last + 1 <= latest - CONF /\
    a = latest - CONF /\
    scanned_ranges (effects (cycle_try hex_prefixed config w last c))
    = [(last + 1, latest - CONF)].
Proof.
  rewrite cycle_try_ranges. unfold cycle_try. rewrite outcome_bind.
  destruct (outcome (get_latest_block w c)) as [latest|e]; [|discriminate].
  destruct (last + 1 <=? latest - CONF) eqn:Hle.
  - apply Z.leb_le in Hle. intros Ha. right. exists latest.
    revert Ha. rewrite !outcome_bind.
    destruct (outcome (scan_blocks _ _ _ _ _)); [|discriminate].
    rewrite outcome_bind.
    match goal with
    | |- match ?o with Ok _ => _ | Raise _ => _ end = _ -> _ =>
        destruct o; [|discriminate]
    end.
    rewrite outcome_bind. cbn [log emit ret outcome w3]. intros [= <-].
    repeat split; try reflexivity; assumption.
  - rewrite outcome_bind. cbn [log emit ret outcome w3]. intros [= <-]. now left.
Qed.


(** A pass of the loop never raises; the sleep at its end does not touch
    the cursor. *)
Lemma cycle_outcome (w : World) (last : Z) (c : bool) :
  outcome (cycle hex_prefixed config w last c)
  = match outcome (cycle_try hex_prefixed config w last c) with
    | Ok a => Ok a
    | Raise _ => Ok last
    end.
Proof.
  unfold cycle. rewrite outcome_bind, outcome_try.
  destruct (outcome (cycle_try hex_prefixed config w last c)) as [a|e].
  - rewrite outcome_bind. reflexivity.
  - destruct (cycle_except_run w last e
                (w3 (cycle_try hex_prefixed config w last c))) as [-> _].
    rewrite outcome_bind. reflexivity.
Qed.

(** The ranges a pass queries: the one from the cursor to the confirmed
    head when it is not empty, and no other, however the pass ends. *)
Lemma cycle_ranges (w : World) (last : Z) (c : bool) :
  scanned_ranges (effects (cycle hex_prefixed config w last c))
  = match outcome (get_latest_block w c) with
    | Ok latest =>
        if last + 1 <=? latest - CONF then [(last + 1, latest - CONF)] else []
    | Raise _ => []
    end.
Proof.
  unfold cycle.
  rewrite effects_bind, effects_try, !scanned_ranges_app, cycle_try_ranges.
  assert (scanned_ranges
            match outcome (cycle_try hex_prefixed config w last c) with
            | Ok _ => []
            | Raise e =>
                effects (cycle_except config w last e
                           (w3 (cycle_try hex_prefixed config w last c)))
            end = []) as ->.
  { destruct (outcome (cycle_try hex_prefixed config w last c)) as [a|e];
      [reflexivity|].
    apply cycle_except_run. }
  assert (forall o : res Z,
             scanned_ranges
               match o with
               | Ok a => effects ((emit (Sleep (POLL_INTERVAL_SECONDS config));;
                                   ret a) (w3 (try_except
                                                 (cycle_try hex_prefixed config w last)
                                                 (cycle_except config w last) c)))
               | Raise _ => []
               end = []) as ->.
  { intros [a|e]; [|reflexivity]. rewrite effects_bind. reflexivity. }
  now rewrite !app_nil_r.
Qed.

(** The two ways a pass ends: the cursor as it was, or moved to the end of
    the one range it queried. *)
Lemma cycle_cases (w : World) (last : Z) (c : bool) :
  outcome (cycle hex_prefixed config w last c) = Ok last \/
  exists latest,
    outcome (get_latest_block w c) = Ok latest /\
    last + 1 <= latest - CONF /\
    outcome (cycle hex_prefixed config w last c) = Ok (latest - CONF) /\
    scanned_ranges (effects (cycle hex_prefixed config w last c))
    = [(last + 1, latest - CONF)].
Proof.
  rewrite cycle_outcome.
  destruct (outcome (cycle_try hex_prefixed config w last c)) as [a|e] eqn:Htry.
  - destruct (cycle_try_ok w last c Htry) as [-> | (latest & Hh & Hle & -> & Hr)].
    + now left.
    + right. exists latest. repeat split; try assumption.
      rewrite cycle_ranges, Hh.
      apply Z.leb_le in Hle. now rewrite Hle.
  - now left.
Qed.

Lemma cycle_monotonic (w : World) (last : Z) (c : bool) :
  exists a, outcome (cycle hex_prefixed config w last c) = Ok a /\ last <= a.
Proof.
  destruct (cycle_cases w last c) as [H | (latest & _ & Hle & H & _)].
  - exists last. split; [exact H | lia].
  - exists (latest - CONF). split; [exact H | lia].
Qed.

Lemma run_snoc (ws : list World) (w : World) (c0 : Z) (c : bool) :
  outcome (run hex_prefixed config (ws ++ [w]) c0 c)
  = match outcome (run hex_prefixed config ws c0 c) with
    | Ok a => outcome (cycle hex_prefixed config w a
                         (w3 (run hex_prefixed config ws c0 c)))
    | Raise e => Raise e
    end.
Proof.
  revert c0 c. induction ws as [|w' ws IH]; intros c0 c; cbn [run app].
  - rewrite outcome_bind. cbn [ret outcome w3].
    destruct (outcome (cycle hex_prefixed config w c0 c)); reflexivity.
  - rewrite !outcome_bind, w3_bind.
    destruct (outcome (cycle hex_prefixed config w' c0 c)); [|reflexivity].
    apply IH.
Qed.

Lemma run_total (ws : list World) (c0 : Z) (c : bool) :
  exists a, outcome (run hex_prefixed config ws c0 c) = Ok a /\ c0 <= a.
Proof.
  revert c0 c. induction ws as [|w ws IH]; intros c0 c; cbn [run].
  - exists c0. split; [reflexivity | lia].
  - rewrite outcome_bind.
    destruct (cycle_monotonic w c0 c) as (a & -> & Ha).
    destruct (IH a (w3 (cycle hex_prefixed config w c0 c))) as (b & -> & Hb).
    exists b. split; [reflexivity | lia].
Qed.

End Loop.

(** * The properties of the specification *)

(** ** The decoder *)

(** C4, as the code has it.  A log with fewer than four topics is not
    decoded: [_parse_log] raises.  The length of the data payload is not
    checked: a log with four topics, of which topics 1 and 2 hold at least
    20 bytes and topic 3 at least one, is decoded whatever its data, with
    [amount] and [destinationChainId] the big-endian values of the bytes
    that are there in [data[0:32]] and [data[32:64]]. *)
Theorem parse_log_truncation (hex_prefixed : bool) (l : LogReceipt) (c : bool) :
  ((length (topics l) < 4)%nat ->
   exists e, outcome (_parse_log hex_prefixed l c) = Raise e) /\
  (forall t0 t1 t2 t3 rest,
     topics l = t0 :: t1 :: t2 :: t3 :: rest ->
     (20 <= length t1)%nat -> (20 <= length t2)%nat -> t3 <> [] ->
     exists d,
       outcome (_parse_log hex_prefixed l c) = Ok d /\
       amount d = big_endian_to_int (firstn 32 (data l)) /\
       destinationChainId d = big_endian_to_int (firstn 32 (skipn 32 (data l)))).
Proof.
  rewrite parse_log_run. cbn [outcome]. split.
  - apply decode_few_topics.
  - intros t0 t1 t2 t3 rest Ht H1 H2 H3.
    rewrite (decode_ok hex_prefixed l Ht H1 H2 H3).
    eexists. split; [reflexivity|]. split; reflexivity.
Qed.

Lemma parse_log_truncation_witness :
  (exists e, outcome (_parse_log false (Sample.three_topic_log 994) true) = Raise e) /\
  (exists d,
     outcome (_parse_log false (Sample.no_data_log 994) true) = Ok d /\
     amount d = big_endian_to_int (firstn 32 (data (Sample.no_data_log 994))) /\
     destinationChainId d
     = big_endian_to_int (firstn 32 (skipn 32 (data (Sample.no_data_log 994))))).
Proof.
  split.
  - apply (proj1 (parse_log_truncation false (Sample.three_topic_log 994) true)).
    vm_compute. lia.
  - apply (proj2 (parse_log_truncation false (Sample.no_data_log 994) true)
             Sample.event_topic
             (repeat x00 12 ++ Sample.token_address)
             (repeat x00 12 ++ Sample.sender_address)
             (int_to_big_endian 32 42) []).
    + reflexivity.
    + vm_compute. lia.
    + vm_compute. lia.
    + vm_compute. discriminate.
Defined.

(** A log with its four topics and no data at all is decoded, to amount 0
    and destination chain 0, where the specification wants an error. *)
Lemma short_data_is_decoded :
  ~ rejects_truncated false /\ ~ rejects_truncated true.
Proof.
  split; intros H;
    destruct (H (Sample.no_data_log 994) true) as [e He];
    try (right; cbn; lia); vm_compute in He; discriminate He.
Qed.

(** C7.  A log built from [(token, sender, nonce, amount,
    destinationChainId)] with the fixed encoding decodes to that tuple: the
    three integers as they are, the two addresses in checksum casing, which
    read back as the 20 bytes given. *)
Theorem decode_encode_roundtrip (hex_prefixed : bool)
    (event_topic token_ sender_ : bytes) (nonce_ amount_ destinationChainId_ : Z)
    (tx : bytes) (height : Z) (c : bool) :
  length token_ = 20%nat ->
  length sender_ = 20%nat ->
  0 <= nonce_ < 2 ^ 256 ->
  0 <= amount_ < 2 ^ 256 ->
  0 <= destinationChainId_ < 2 ^ 256 ->
  outcome (_parse_log hex_prefixed
             (encode_log event_topic token_ sender_ nonce_ amount_
                destinationChainId_ tx height) c)
  = Ok {| token := checksum_encode (hexlify token_);
          sender := checksum_encode (hexlify sender_);
          nonce := nonce_;
          amount := amount_;
          destinationChainId := destinationChainId_;
          txHash := HexBytes_hex hex_prefixed tx;
          blockHeight := height |}
  /\ address_bytes (checksum_encode (hexlify token_)) = Some token_
  /\ address_bytes (checksum_encode (hexlify sender_)) = Some sender_.
Proof.
  intros Htok Hsnd Hn Ha Hd. split; [|split; apply address_bytes_checksum].
  rewrite parse_log_run. cbn [outcome].
  erewrite decode_ok; [| reflexivity | | | ].
  - cbn [encode_log data transactionHash blockNumber].
    rewrite !last_n_app by assumption.
    rewrite slice_0_app by apply length_int_to_big_endian.
    rewrite slice_app_all
      by (rewrite ?length_int_to_big_endian; reflexivity).
    now rewrite !big_endian_word by assumption.
  - rewrite length_app, repeat_length. lia.
  - rewrite length_app, repeat_length. lia.
  - intros Hnil. apply (f_equal (@length byte)) in Hnil.
    rewrite length_int_to_big_endian in Hnil. discriminate.
Qed.

Lemma decode_encode_roundtrip_witness :
  outcome (_parse_log true (Sample.good_log 994) true)
  = Ok {| token := lit "0x5aAeb6053F3E94C9b9A09f33669435E7Ef1BeAed";
          sender := lit "0xfB6916095ca1df60bB79Ce92cE3Ea74c37c5d359";
          nonce := 42;
          amount := 1000000;
          destinationChainId := 1;
          txHash := lit "0xabababababababababababababababababababababababababababababababab";
          blockHeight := 994 |}.
Proof.
  refine (eq_trans
            (proj1 (@decode_encode_roundtrip true Sample.event_topic
                      Sample.token_address Sample.sender_address 42 1000000 1
                      Sample.tx_hash 994 true eq_refl eq_refl
                      ltac:(lia) ltac:(lia) ltac:(lia))) _).
  vm_compute. reflexivity.
Defined.


(** ** The scanner *)

(** C9.  On a range with [from_block > to_block] the scan returns the empty
    list and does nothing else: no query is sent, no record is logged. *)
Theorem scan_blocks_empty_range (hex_prefixed : bool) (w : World)
    (from_block to_block : Z) (c : bool) :
  from_block > to_block ->
  scan_blocks hex_prefixed w from_block to_block c
  = {| outcome := Ok []; w3 := c; effects := [] |}.
Proof.
  intros Hgt. unfold scan_blocks.
  destruct (from_block >? to_block) eqn:E; [reflexivity | lia].
Qed.

Lemma scan_blocks_empty_range_witness :
  scan_blocks false (Sample.world 1000 (Ok [Sample.good_log 4]) (Ok true)) 5 3 true
  = {| outcome := Ok []; w3 := true; effects := [] |}.
Proof. apply scan_blocks_empty_range. lia. Defined.

(** The result of a scan, whatever the range. *)
Lemma scan_blocks_outcome (hex_prefixed : bool) (w : World)
    (from_block to_block : Z) (c : bool) :
  outcome (scan_blocks hex_prefixed w from_block to_block c)
  = Ok (if from_block >? to_block then []
        else match get_logs_result w from_block to_block with
             | Ok logs => if existsb (malformed hex_prefixed) logs then []
                          else decoded hex_prefixed logs
             | Raise _ => []
             end).
Proof.
  destruct (from_block >? to_block) eqn:E.
  - rewrite scan_blocks_skip by lia. reflexivity.
  - destruct (@scan_blocks_run hex_prefixed w from_block to_block c ltac:(lia))
      as (tail & -> & _). reflexivity.
Qed.

(** A call with a connector that is set and bounds that print is
    [scan_blocks]. *)
Lemma scan_blocks_call_connected (hex_prefixed : bool) (w : World)
    (from_block to_block : Z) :
  printable from_block = true -> printable to_block = true ->
  scan_blocks_call hex_prefixed w from_block to_block true
  = scan_blocks hex_prefixed w from_block to_block true.
Proof.
  intros Hf Ht. unfold scan_blocks_call.
  destruct (Z.gtb_spec from_block to_block) as [Hgt|Hle].
  - rewrite scan_blocks_skip by lia. reflexivity.
  - rewrite Hf, Ht. cbn [andb negb]. unfold bind at 1, get_w3.
    destruct (scan_blocks hex_prefixed w from_block to_block true); reflexivity.
Qed.

(** With [connector.w3] left [None] nothing is sent and the list is
    empty. *)
Lemma scan_blocks_call_unconnected (hex_prefixed : bool) (w : World)
    (from_block to_block : Z) :
  from_block <= to_block ->
  printable from_block = true -> printable to_block = true ->
  scan_blocks_call hex_prefixed w from_block to_block false
  = {| outcome := Ok [];
       w3 := false;
       effects := [Log INFO (MsgScanning from_block to_block);
                   Log ERROR (MsgScanError AttributeError)] |}.
Proof.
  intros Hle Hf Ht. unfold scan_blocks_call.
  destruct (Z.gtb_spec from_block to_block); [lia|].
  rewrite Hf, Ht. reflexivity.
Qed.

(** A bound that does not print stops the call on line 139. *)
Lemma scan_blocks_call_unprintable (hex_prefixed : bool) (w : World)
    (from_block to_block : Z) (c : bool) :
  from_block <= to_block ->
  printable from_block && printable to_block = false ->
  scan_blocks_call hex_prefixed w from_block to_block c
  = {| outcome := Raise ValueError; w3 := c; effects := [] |}.
Proof.
  intros Hle Hp. unfold scan_blocks_call.
  destruct (Z.gtb_spec from_block to_block); [lia|].
  rewrite Hp. reflexivity.
Qed.

Lemma scan_blocks_call_skip (hex_prefixed : bool) (w : World)
    (from_block to_block : Z) (c : bool) :
  from_block > to_block ->
  scan_blocks_call hex_prefixed w from_block to_block c
  = {| outcome := Ok []; w3 := c; effects := [] |}.
Proof.
  intros Hgt. unfold scan_blocks_call.
  destruct (Z.gtb_spec from_block to_block); [reflexivity | lia].
Qed.

(** A call on a range that is not empty returns only with bounds that
    print. *)
Lemma scan_blocks_call_returns (hex_prefixed : bool) (w : World)
    (from_block to_block : Z) (c : bool) (events : list ParsedData) :
  from_block <= to_block ->
  outcome (scan_blocks_call hex_prefixed w from_block to_block c) = Ok events ->
  printable from_block = true /\ printable to_block = true.
Proof.
  intros Hle H.
  destruct (printable from_block && printable to_block) eqn:Hp.
  - now apply andb_true_iff in Hp.
  - rewrite (scan_blocks_call_unprintable hex_prefixed w c Hle Hp) in H.
    discriminate H.
Qed.

(** C10, as the code has it.  A call of [scan_blocks] with bounds that print
    returns a list, whatever the connector and the answers of the node; when
    the scan failed (the query raised, [BlockNotFound] or anything else, or
    a log of the batch did not decode) the list is empty, the very result
    of a scan of the same range on a node that has no matching log. *)
Theorem scan_blocks_never_raises (hex_prefixed : bool) (w : World)
    (from_block to_block : Z) (c : bool) :
  printable from_block = true ->
  printable to_block = true ->
  (exists events,
     outcome (scan_blocks_call hex_prefixed w from_block to_block c) = Ok events) /\
  (scan_failed hex_prefixed w from_block to_block ->
   outcome (scan_blocks_call hex_prefixed w from_block to_block c) = Ok [] /\
   outcome (scan_blocks_call hex_prefixed w from_block to_block c)
   = outcome (scan_blocks_call hex_prefixed (no_logs w) from_block to_block c)).
Proof.
  intros Hf Ht. destruct c.
  - rewrite !scan_blocks_call_connected by assumption.
    rewrite !scan_blocks_outcome. split; [eauto|].
    unfold scan_failed. cbn [no_logs get_logs_result existsb].
    destruct (from_block >? to_block); [intros _; split; reflexivity|].
    destruct (get_logs_result w from_block to_block) as [logs|e].
    + intros ->. split; reflexivity.
    + intros _. split; reflexivity.
  - destruct (Z.le_gt_cases from_block to_block) as [Hle|Hgt].
    + rewrite !scan_blocks_call_unconnected by assumption.
      split; [eexists; reflexivity | intros _; split; reflexivity].
    + rewrite !scan_blocks_call_skip by lia.
      split; [eexists; reflexivity | intros _; split; reflexivity].
Qed.

Lemma scan_blocks_never_raises_witness :
  outcome (scan_blocks_call false (Sample.world 116 (Raise BlockNotFound) (Ok true))
             100 110 true) = Ok [] /\
  outcome (scan_blocks_call false
             (Sample.world 116 (Raise RequestsConnectionError) (Ok true))
             100 110 true)
  = outcome (scan_blocks_call false
               (no_logs (Sample.world 116 (Raise RequestsConnectionError) (Ok true)))
               100 110 true).
Proof.
  split.
  - apply (proj2 (@scan_blocks_never_raises false
                    (Sample.world 116 (Raise BlockNotFound) (Ok true)) 100 110 true
                    ltac:(vm_compute; reflexivity) ltac:(vm_compute; reflexivity))).
    exact I.
  - apply (proj2 (@scan_blocks_never_raises false
                    (Sample.world 116 (Raise RequestsConnectionError) (Ok true))
                    100 110 true
                    ltac:(vm_compute; reflexivity) ltac:(vm_compute; reflexivity))).
    exact I.
Defined.

(** A bound of 4301 digits: the call ends on line 139 with [ValueError],
    before the [try] is entered. *)
Lemma unprintable_bound_raises :
  ~ scan_never_raises false /\ ~ scan_never_raises true.
Proof.
  split; intros H;
    destruct (H (Sample.world 116 (Ok []) (Ok true)) (10 ^ 4300) (10 ^ 4300) true)
      as [events He];
    rewrite scan_blocks_call_unprintable in He
      by (try apply Z.le_refl; vm_compute; reflexivity);
    discriminate He.
Qed.




(** ** The poll loop *)



(** On an unavailable range the cursor does not stay where it was. *)
Lemma unavailable_range_is_skipped :
  ~ keeps_cursor_when_range_unavailable false Sample.config /\
  ~ keeps_cursor_when_range_unavailable true Sample.config.
Proof.
  split; intros H;
    specialize (H (Sample.world 116 (Raise BlockNotFound) (Ok true))
                  99 116 true eq_refl ltac:(cbn; lia) eq_refl);
    vm_compute in H; discriminate H.
Qed.

(** The scan returns an event and [process_event] raises on it: the pass
    ends in the handler of [Exception] with the cursor where it was. *)
Lemma sink_exception_skips_commit :
  ~ commits_when_scan_returns false Sample.config /\
  ~ commits_when_scan_returns true Sample.config.
Proof.
  split; intros H.
  - specialize (H (Sample.world 1000 (Ok [Sample.good_log 994]) (Raise AttributeError))
                  993 1000 true (decoded false [Sample.good_log 994])
                  eq_refl ltac:(cbn; lia)).
    vm_compute in H. specialize (H eq_refl). discriminate H.
  - specialize (H (Sample.world 1000 (Ok [Sample.good_log 994]) (Raise AttributeError))
                  993 1000 true (decoded true [Sample.good_log 994])
                  eq_refl ltac:(cbn; lia)).
    vm_compute in H. specialize (H eq_refl). discriminate H.
Qed.

(** C5.  Whatever the worlds of the passes (any head, any answer of the
    node or of the sink), every run of the loop returns a cursor, and the
    cursor after one more pass is not below the cursor before it. *)
Theorem cursor_monotonic (hex_prefixed : bool) (config : Config)
    (ws : list World) (w : World) (c0 : Z) (c : bool) :
  exists cN cN1,
    outcome (run hex_prefixed config ws c0 c) = Ok cN /\
    outcome (run hex_prefixed config (ws ++ [w]) c0 c) = Ok cN1 /\
    cN <= cN1.
Proof.
  rewrite run_snoc.
  destruct (run_total hex_prefixed config ws c0 c) as (cN & -> & _).
  destruct (cycle_monotonic hex_prefixed config w cN
              (w3 (run hex_prefixed config ws c0 c))) as (cN1 & -> & Hle).
  exists cN, cN1. repeat split. exact Hle.
Qed.

(** C6.  Two passes in a row that both move the cursor: the first queried
    one range [(a, b)], the second the one range [(b + 1, c)], where [b] and
    [c] are the cursors they leave, and every height from [a] to [c] lies in
    exactly one of the two. *)
Theorem consecutive_ranges_contiguous (hex_prefixed : bool) (config : Config)
    (w1 w2 : World) (c0 c1 c2 : Z) (s : bool) :
  outcome (cycle hex_prefixed config w1 c0 s) = Ok c1 ->
  c1 <> c0 ->
  outcome (cycle hex_prefixed config w2 c1
             (w3 (cycle hex_prefixed config w1 c0 s))) = Ok c2 ->
  c2 <> c1 ->
  exists a,
    scanned_ranges (effects (cycle hex_prefixed config w1 c0 s)) = [(a, c1)] /\
    scanned_ranges (effects (cycle hex_prefixed config w2 c1
                               (w3 (cycle hex_prefixed config w1 c0 s))))
    = [(c1 + 1, c2)] /\
    a <= c1 /\ c1 + 1 <= c2 /\
    forall h, a <= h <= c2 -> coverage [(a, c1); (c1 + 1, c2)] h = 1%nat.
Proof.
  intros H1 Hn1 H2 Hn2.
  destruct (cycle_cases hex_prefixed config w1 c0 s)
    as [E | (l1 & _ & Hle1 & E & R1)]; rewrite E in H1; injection H1 as <-;
    [contradiction|].
  destruct (cycle_cases hex_prefixed config w2 (l1 - CONFIRMATIONS_REQUIRED config)
              (w3 (cycle hex_prefixed config w1 c0 s)))
    as [E2 | (l2 & _ & Hle2 & E2 & R2)]; rewrite E2 in H2; injection H2 as <-;
    [contradiction|].
  exists (c0 + 1). repeat split; try assumption.
  intros h Hh. unfold coverage, covers. cbn [filter fst snd].
  destruct (Z.leb_spec (c0 + 1) h), (Z.leb_spec h (l1 - CONFIRMATIONS_REQUIRED config)),
    (Z.leb_spec (l1 - CONFIRMATIONS_REQUIRED config + 1) h),
    (Z.leb_spec h (l2 - CONFIRMATIONS_REQUIRED config)); cbn; lia.
Qed.

Lemma consecutive_ranges_contiguous_witness :
  exists a,
    scanned_ranges
      (effects (cycle false Sample.config
                  (Sample.world 116 (Ok [Sample.good_log 105]) (Ok true)) 99 true))
    = [(a, 110)] /\
    scanned_ranges
      (effects (cycle false Sample.config (Sample.world 126 (Ok []) (Ok true)) 110
                  (w3 (cycle false Sample.config
                         (Sample.world 116 (Ok [Sample.good_log 105]) (Ok true))
                         99 true))))
    = [(110 + 1, 120)] /\
    a <= 110 /\ 110 + 1 <= 120 /\
    forall h, a <= h <= 120 -> coverage [(a, 110); (110 + 1, 120)] h = 1%nat.
Proof.
  apply (@consecutive_ranges_contiguous false Sample.config
           (Sample.world 116 (Ok [Sample.good_log 105]) (Ok true))
           (Sample.world 126 (Ok []) (Ok true)) 99 110 120 true).
  - vm_compute. reflexivity.
  - lia.
  - vm_compute. reflexivity.
  - lia.
Defined.

(** The scenario of the specification: six confirmations, head 1000. *)
Example startup_cursor :
  outcome (initial_cursor Sample.config (Sample.world 1000 (Ok []) (Ok true)) true)
  = Ok 993.
Proof. reflexivity. Qed.

(** * Further properties of the code *)

(** ** [get_config_value_6708] *)

Lemma split_without_separator (sep : ascii) (s : str) :
  ~ In sep s -> split sep s = [s].
Proof.
  induction s as [|c s IH]; intros Hs; cbn [split].
  - reflexivity.
  - destruct (Ascii.eqb_spec c sep) as [->|_].
    + exfalso. apply Hs. now left.
    + rewrite IH; [reflexivity|]. intros H. apply Hs. now right.
Qed.

Lemma split_at_separator (sep : ascii) (a b : str) :
  ~ In sep a -> split sep (a ++ sep :: b) = a :: split sep b.
Proof.
  induction a as [|c a IH]; intros Ha; cbn [split app].
  - now rewrite Ascii.eqb_refl.
  - destruct (Ascii.eqb_spec c sep) as [->|_].
    + exfalso. apply Ha. now left.
    + rewrite IH; [reflexivity|]. intros H. apply Ha. now right.
Qed.

Lemma startswith_app (key rest : str) : startswith (key ++ rest) key = true.
Proof.
  induction key as [|c key IH]; cbn [startswith app]; [reflexivity|].
  now rewrite Ascii.eqb_refl, IH.
Qed.

Lemma config_lookup_skip (pre : list str) (rest : list str) (key : str) :
  (forall l, In l pre -> startswith l key = false) ->
  config_lookup (pre ++ rest) key = config_lookup rest key.
Proof.
  induction pre as [|l pre IH]; intros Hpre; cbn [config_lookup app].
  - reflexivity.
  - rewrite (Hpre l) by now left. apply IH. intros l' Hl'. apply Hpre. now right.
Qed.

(** X1.  The lookup answers with the first line that begins with the key, be it
    the line of a longer name: the value is the text between the first [=]
    of that line and the next one (or the line's end), stripped; the lines
    after it are not read. *)
Theorem config_lookup_first_match (pre post : list str) (key suffix value rest : str) :
  (forall l, In l pre -> startswith l key = false) ->
  ~ In "="%char (key ++ suffix) ->
  ~ In "="%char value ->
  rest = [] \/ (exists more, rest = "="%char :: more) ->
  get_config_value_6708
    (Ok (pre ++ ((key ++ suffix) ++ "="%char :: value ++ rest) :: post)) key
  = Ok (Some (strip value)).
Proof.
  intros Hpre Hname Hvalue Hrest. cbn [get_config_value_6708].
  rewrite config_lookup_skip by exact Hpre. cbn [config_lookup].
  rewrite <- app_assoc, startswith_app, app_assoc.
  rewrite split_at_separator by exact Hname.
  destruct Hrest as [-> | [more ->]].
  - rewrite app_nil_r, split_without_separator by exact Hvalue. reflexivity.
  - rewrite split_at_separator by exact Hvalue. reflexivity.
Qed.

Lemma config_lookup_first_match_witness :
  get_config_value_6708
    (Ok ([lit "[node]"] ++ ((lit "port" ++ lit "al") ++ "="%char
                              :: lit " x=y " ++ [])
                        :: [lit "port=80"]))
    (lit "port")
  = Ok (Some (strip (lit " x"))).
Proof.
  refine (eq_trans _
            (@config_lookup_first_match [lit "[node]"] [lit "port=80"]
               (lit "port") (lit "al") (lit " x") (lit "=y ") _ _ _ _)).
  - reflexivity.
  - intros l [<- | []]. reflexivity.
  - cbn. intros H. repeat (destruct H as [H | H]; [discriminate H|]). exact H.
  - cbn. intros H. repeat (destruct H as [H | H]; [discriminate H|]). exact H.
  - right. eexists. reflexivity.
Defined.

(** X2.  The lookup answers [None] exactly when no line begins with the key. *)
Theorem config_lookup_none_iff (lines : list str) (key : str) :
  get_config_value_6708 (Ok lines) key = Ok None
  <-> forall l, In l lines -> startswith l key = false.
Proof.
  cbn [get_config_value_6708]. induction lines as [|l lines IH]; cbn [config_lookup].
  - split; [intros _ l [] | reflexivity].
  - destruct (startswith l key) eqn:Hl.
    + split.
      * destruct (getitem _ 1); discriminate.
      * intros H. specialize (H l (or_introl eq_refl)). congruence.
    + rewrite IH. split.
      * intros H l' [<- | Hl']; [exact Hl | now apply H].
      * intros H l' Hl'. apply H. now right.
Qed.

(** X3.  A first matching line without [=] makes the lookup raise [IndexError],
    whatever the lines after it hold. *)
Theorem config_lookup_no_separator (pre post : list str) (line key : str) :
  (forall l, In l pre -> startswith l key = false) ->
  startswith line key = true ->
  ~ In "="%char line ->
  get_config_value_6708 (Ok (pre ++ line :: post)) key = Raise IndexError.
Proof.
  intros Hpre Hline Hsep. cbn [get_config_value_6708].
  rewrite config_lookup_skip by exact Hpre. cbn [config_lookup].
  now rewrite Hline, split_without_separator by exact Hsep.
Qed.

Lemma config_lookup_no_separator_witness :
  get_config_value_6708 (Ok ([] ++ lit "port 80" :: [lit "port=80"])) (lit "port")
  = Raise IndexError.
Proof.
  apply config_lookup_no_separator.
  - intros l [].
  - reflexivity.
  - cbn. intros H. repeat (destruct H as [H | H]; [discriminate H|]). exact H.
Defined.

(** ** [Web3.to_checksum_address] and [Config.validate] *)

Lemma lower_upper_lower (c : ascii) : lower (upper (lower c)) = lower c.
Proof. destruct c as [[] [] [] [] [] [] [] []]; reflexivity. Qed.

Lemma lower_lower (c : ascii) : lower (lower c) = lower c.
Proof. destruct c as [[] [] [] [] [] [] [] []]; reflexivity. Qed.

Lemma is_hex_char_lower (c : ascii) : is_hex_char (lower c) = is_hex_char c.
Proof. destruct c as [[] [] [] [] [] [] [] []]; reflexivity. Qed.

Lemma lower_checksum_case (s hash : str) :
  map lower (checksum_case (map lower s) hash) = map lower s.
Proof.
  revert hash. induction s as [|c s IH]; intros hash.
  - destruct hash; reflexivity.
  - destruct hash as [|h hash]; cbn [map checksum_case].
    + now rewrite lower_lower, map_map, (map_ext _ _ lower_lower), <- map_map.
    + rewrite IH. f_equal.
      destruct (hex_val h) as [n|]; [destruct (7 <? n)|];
        auto using lower_upper_lower, lower_lower.
Qed.

Lemma is_hex_map_lower (s : str) :
  forallb is_hex_char (map lower s) = forallb is_hex_char s.
Proof.
  induction s as [|c s IH]; cbn [map forallb]; [reflexivity|].
  now rewrite is_hex_char_lower, IH.
Qed.

(** What an accepted address is turned into. *)
Lemma to_checksum_address_ok (value a : str) :
  to_checksum_address value = Ok a <->
  length (remove_0x_prefix value) = 40%nat /\
  forallb is_hex_char (remove_0x_prefix value) = true /\
  a = checksum_encode (map lower (remove_0x_prefix value)).
Proof.
  unfold to_checksum_address. rewrite is_hex_map_lower, length_map.
  destruct (forallb is_hex_char (remove_0x_prefix value)); cbn [andb].
  - destruct (Nat.eqb_spec (length (remove_0x_prefix value)) 40) as [E|E].
    + split; [intros [= <-]; auto | intros (_ & _ & ->); reflexivity].
    + split; [discriminate | intros (E' & _); contradiction].
  - split; [discriminate | intros (_ & H & _); discriminate].
Qed.

Lemma to_checksum_address_raises (value : str) (e : exn) :
  to_checksum_address value = Raise e -> e = ValueError.
Proof.
  unfold to_checksum_address. destruct (_ && _); [discriminate|].
  now intros [= <-].
Qed.

(** A checksum address is a fixed point of the normalisation. *)
Lemma to_checksum_address_idempotent (value a : str) :
  to_checksum_address value = Ok a -> to_checksum_address a = Ok a.
Proof.
  intros H. apply to_checksum_address_ok in H as (Hlen & Hhex & ->).
  apply to_checksum_address_ok. unfold checksum_encode.
  change (remove_0x_prefix (lit "0x" ++ ?s)) with s.
  set (hash := hexlify _).
  assert (length (checksum_case (map lower (remove_0x_prefix value)) hash) = 40%nat)
    as Hlen'.
  { rewrite <- (length_map lower), lower_checksum_case, length_map. exact Hlen. }
  repeat split.
  - exact Hlen'.
  - rewrite <- is_hex_map_lower, lower_checksum_case, is_hex_map_lower. exact Hhex.
  - rewrite lower_checksum_case. reflexivity.
Qed.

(** X4.  [validate] fails with [ValueError] and nothing else, so the handler of
    [main] catches every failure of it. *)
Theorem validate_raises_value_error (cfg : ConfigVars) :
  (exists cfg', validate cfg = Ok cfg') \/ validate cfg = Raise ValueError.
Proof.
  unfold validate.
  destruct (not_set (SOURCE_CHAIN_RPC cfg)); [now right|].
  destruct (not_set (DESTINATION_CHAIN_RPC cfg)); [now right|].
  destruct (not_set (BRIDGE_CONTRACT_ADDRESS cfg)); [now right|].
  destruct (not_set (PRIVATE_KEY cfg)); [now right|].
  destruct (BRIDGE_CONTRACT_ADDRESS cfg) as [a|]; [|now right].
  destruct (to_checksum_address a) as [a'|e] eqn:E; [left; eauto|].
  right. now rewrite (to_checksum_address_raises _ E).
Qed.

(** X5.  [validate] succeeds exactly when the four variables are set and not
    empty and the bridge address is 40 hexadecimal digits after an optional
    [0x]; it then changes the address to its checksum form and nothing
    else. *)
Theorem validate_ok_iff (cfg cfg' : ConfigVars) :
  validate cfg = Ok cfg' <->
  not_set (SOURCE_CHAIN_RPC cfg) = false /\
  not_set (DESTINATION_CHAIN_RPC cfg) = false /\
  not_set (PRIVATE_KEY cfg) = false /\
  exists a,
    BRIDGE_CONTRACT_ADDRESS cfg = Some a /\
    length (remove_0x_prefix a) = 40%nat /\
    forallb is_hex_char (remove_0x_prefix a) = true /\
    cfg' = {| SOURCE_CHAIN_RPC := SOURCE_CHAIN_RPC cfg;
              DESTINATION_CHAIN_RPC := DESTINATION_CHAIN_RPC cfg;
              BRIDGE_CONTRACT_ADDRESS :=
                Some (checksum_encode (map lower (remove_0x_prefix a)));
              PRIVATE_KEY := PRIVATE_KEY cfg |}.
Proof.
  unfold validate.
  destruct (not_set (SOURCE_CHAIN_RPC cfg));
    [split; [discriminate | intros (H & _); discriminate]|].
  destruct (not_set (DESTINATION_CHAIN_RPC cfg));
    [split; [discriminate | intros (_ & H & _); discriminate]|].
  destruct (not_set (PRIVATE_KEY cfg)) eqn:Hkey.
  - destruct (not_set (BRIDGE_CONTRACT_ADDRESS cfg));
      (split; [discriminate | intros (_ & _ & H & _); discriminate]).
  - destruct (BRIDGE_CONTRACT_ADDRESS cfg) as [a|] eqn:Ha; cbn [not_set].
    + destruct a as [|c a].
      * split; [discriminate|]. intros (_ & _ & _ & a' & [= <-] & H & _).
        discriminate H.
      * destruct (to_checksum_address (c :: a)) as [a'|e] eqn:E.
        -- apply to_checksum_address_ok in E as (Hlen & Hhex & ->).
           split.
           ++ intros [= <-]. repeat split. exists (c :: a). repeat split; assumption.
           ++ intros (_ & _ & _ & a' & [= <-] & _ & _ & ->). reflexivity.
        -- split; [discriminate|].
           intros (_ & _ & _ & a' & [= <-] & Hlen & Hhex & _).
           assert (to_checksum_address (c :: a)
                   = Ok (checksum_encode (map lower (remove_0x_prefix (c :: a)))))
             as E' by (apply to_checksum_address_ok; auto).
           congruence.
    + split; [discriminate|]. intros (_ & _ & _ & a' & H & _). discriminate H.
Qed.

(** X6.  Validating a validated configuration changes nothing. *)
Theorem validate_idempotent (cfg cfg' : ConfigVars) :
  validate cfg = Ok cfg' -> validate cfg' = Ok cfg'.
Proof.
  unfold validate.
  destruct (not_set (SOURCE_CHAIN_RPC cfg)) eqn:Hs; [discriminate|].
  destruct (not_set (DESTINATION_CHAIN_RPC cfg)) eqn:Hd; [discriminate|].
  destruct (not_set (BRIDGE_CONTRACT_ADDRESS cfg)); [discriminate|].
  destruct (not_set (PRIVATE_KEY cfg)) eqn:Hk; [discriminate|].
  destruct (BRIDGE_CONTRACT_ADDRESS cfg) as [a|]; [|discriminate].
  destruct (to_checksum_address a) as [a'|e] eqn:E; [|discriminate].
  intros [= <-].
  cbn [SOURCE_CHAIN_RPC DESTINATION_CHAIN_RPC BRIDGE_CONTRACT_ADDRESS PRIVATE_KEY].
  rewrite Hs, Hd, Hk, (to_checksum_address_idempotent _ E).
  apply to_checksum_address_ok in E as (_ & _ & ->). reflexivity.
Qed.

Lemma validate_idempotent_witness :
  let cfg := {| SOURCE_CHAIN_RPC := Some (lit "http://a");
                DESTINATION_CHAIN_RPC := Some (lit "http://b");
                BRIDGE_CONTRACT_ADDRESS :=
                  Some (lit "0X5AAEB6053F3E94C9B9A09F33669435E7EF1BEAED");
                PRIVATE_KEY := Some (lit "k") |} in
  let cfg' := {| SOURCE_CHAIN_RPC := Some (lit "http://a");
                 DESTINATION_CHAIN_RPC := Some (lit "http://b");
                 BRIDGE_CONTRACT_ADDRESS :=
                   Some (lit "0x5aAeb6053F3E94C9b9A09f33669435E7Ef1BeAed");
                 PRIVATE_KEY := Some (lit "k") |} in
  validate cfg' = Ok cfg'.
Proof.
  intros cfg cfg'. apply (@validate_idempotent cfg cfg').
  vm_compute. reflexivity.
Defined.

(** ** More on the decoder *)

Section DecoderFacts.

Variable hex_prefixed : bool.

Arguments HexBytes_hex : simpl never.

Lemma last_n_short {A} (n : nat) (s : list A) :
  (length s <= n)%nat -> last_n n s = s.
Proof.
  intros H. unfold last_n.
  replace (length s - n)%nat with 0%nat by lia. reflexivity.
Qed.

(** A topic of fewer than 20 bytes is no address. *)
Lemma short_topic_rejected (t : bytes) :
  (length t < 20)%nat ->
  to_checksum_address (lit "0x" ++ last_n 40 (HexBytes_hex hex_prefixed t))
  = Raise ValueError.
Proof.
  intros Hlen. unfold HexBytes_hex. destruct hex_prefixed.
  - rewrite last_n_short
      by (rewrite length_app, length_hexlify; cbn [lit list_ascii_of_string length]; lia).
    unfold to_checksum_address.
    change (remove_0x_prefix (lit "0x" ++ lit "0x" ++ hexlify t))
      with ("0"%char :: "x"%char :: hexlify t).
    reflexivity.
  - cbn [app]. rewrite last_n_short by (rewrite length_hexlify; lia).
    unfold to_checksum_address.
    change (remove_0x_prefix (lit "0x" ++ hexlify t)) with (hexlify t).
    rewrite lower_hexlify, is_hex_hexlify, length_hexlify.
    destruct (Nat.eqb_spec (2 * length t) 40); [lia | reflexivity].
Qed.

Lemma empty_topic_rejected :
  to_int_hexstr (HexBytes_hex hex_prefixed []) = Raise ValueError.
Proof. unfold HexBytes_hex. destruct hex_prefixed; reflexivity. Qed.

(** [decode] on a log with four topics, step by step. *)
Lemma decode_four_topics (l : LogReceipt) (t0 t1 t2 t3 : bytes) (rest : list bytes) :
  topics l = t0 :: t1 :: t2 :: t3 :: rest ->
  decode hex_prefixed l
  = if (length t1 <? 20)%nat then Raise ValueError
    else if (length t2 <? 20)%nat then Raise ValueError
    else match t3 with
         | [] => Raise ValueError
         | _ =>
             Ok {| token := checksum_encode (hexlify (last_n 20 t1));
                   sender := checksum_encode (hexlify (last_n 20 t2));
                   nonce := big_endian_to_int t3;
                   amount := big_endian_to_int (slice 0 32 (data l));
                   destinationChainId := big_endian_to_int (slice 32 64 (data l));
                   txHash := HexBytes_hex hex_prefixed (transactionHash l);
                   blockHeight := blockNumber l |}
         end.
Proof.
  intros Ht.
  destruct (Nat.ltb_spec (length t1) 20) as [H1|H1].
  { unfold decode, _parse_log, bind, lift, log, emit, ret, raise.
    rewrite Ht. cbn [getitem nth_error]. now rewrite short_topic_rejected. }
  destruct (Nat.ltb_spec (length t2) 20) as [H2|H2].
  { unfold decode, _parse_log, bind, lift, log, emit, ret, raise.
    rewrite Ht. cbn [getitem nth_error].
    rewrite (topic_address hex_prefixed t1 H1).
    rewrite to_checksum_address_hexlify by (apply length_last_n; lia).
    now rewrite short_topic_rejected. }
  destruct t3 as [|x t3].
  { unfold decode, _parse_log, bind, lift, log, emit, ret, raise.
    rewrite Ht. cbn [getitem nth_error].
    rewrite (topic_address hex_prefixed t1 H1), (topic_address hex_prefixed t2 H2).
    rewrite !to_checksum_address_hexlify by (apply length_last_n; lia).
    now rewrite empty_topic_rejected. }
  apply (decode_ok hex_prefixed l Ht H1 H2). discriminate.
Qed.

End DecoderFacts.

(** X7.  [_parse_log] returns an event exactly for the logs with at least four
    topics of which topics 1 and 2 hold at least 20 bytes and topic 3 is not
    empty; the data payload plays no part in it. *)
Theorem parse_log_succeeds_iff (hex_prefixed : bool) (l : LogReceipt) (c : bool) :
  (exists d, outcome (_parse_log hex_prefixed l c) = Ok d) <->
  exists t0 t1 t2 t3 rest,
    topics l = t0 :: t1 :: t2 :: t3 :: rest /\
    (20 <= length t1)%nat /\ (20 <= length t2)%nat /\ t3 <> [].
Proof.
  rewrite parse_log_run. cbn [outcome]. split.
  - intros [d Hd].
    destruct (topics l) as [|t0 [|t1 [|t2 [|t3 rest]]]] eqn:Ht;
      try (destruct (@decode_few_topics hex_prefixed l) as [e He];
           [rewrite Ht; cbn; lia | congruence]).
    rewrite (decode_four_topics hex_prefixed l Ht) in Hd.
    destruct (Nat.ltb_spec (length t1) 20); [discriminate|].
    destruct (Nat.ltb_spec (length t2) 20); [discriminate|].
    destruct t3; [discriminate|].
    exists t0, t1, t2, (b :: t3), rest. repeat split; try assumption. discriminate.
  - intros (t0 & t1 & t2 & t3 & rest & Ht & H1 & H2 & H3).
    rewrite (decode_ok hex_prefixed l Ht H1 H2 H3). eauto.
Qed.

(** X8.  The exception of [_parse_log] tells what is wrong: [IndexError] when
    a topic is not there, [ValueError] when topic 1 or 2 holds fewer than 20
    bytes or topic 3 is empty; nothing else is raised. *)
Theorem parse_log_error_kind (hex_prefixed : bool) (l : LogReceipt) (c : bool) (e : exn) :
  outcome (_parse_log hex_prefixed l c) = Raise e ->
  (e = IndexError /\ (length (topics l) < 4)%nat) \/
  (e = ValueError /\
   ((exists i t, (1 <= i <= 2)%nat /\ nth_error (topics l) i = Some t /\
                 (length t < 20)%nat) \/
    nth_error (topics l) 3 = Some [])).
Proof.
  rewrite parse_log_run. cbn [outcome].
  unfold decode, _parse_log, bind, lift, log, emit, ret, raise.
  destruct (topics l) as [|t0 [|t1 rest1]] eqn:Ht; cbn [getitem nth_error length].
  - intros [= <-]. left. split; [reflexivity | lia].
  - intros [= <-]. left. split; [reflexivity | lia].
  - destruct (Nat.ltb_spec (length t1) 20) as [H1|H1].
    + rewrite (@short_topic_rejected hex_prefixed t1 H1). intros [= <-].
      right. split; [reflexivity|]. left. exists 1%nat, t1. repeat split; auto.
    + rewrite (topic_address hex_prefixed t1 H1).
      rewrite to_checksum_address_hexlify by (apply length_last_n; lia).
      destruct rest1 as [|t2 rest2]; cbn [getitem nth_error length].
      * intros [= <-]. left. split; [reflexivity | lia].
      * cbn [getitem nth_error].
        destruct (Nat.ltb_spec (length t2) 20) as [H2|H2].
        -- rewrite (@short_topic_rejected hex_prefixed t2 H2). intros [= <-].
           right. split; [reflexivity|]. left. exists 2%nat, t2. repeat split; auto.
        -- rewrite (topic_address hex_prefixed t2 H2).
           rewrite to_checksum_address_hexlify by (apply length_last_n; lia).
           destruct rest2 as [|t3 rest3]; cbn [getitem nth_error length].
           ++ intros [= <-]. left. split; [reflexivity | lia].
           ++ destruct t3 as [|x t3].
              ** rewrite (@empty_topic_rejected hex_prefixed). intros [= <-].
                 right. split; [reflexivity|]. now right.
              ** rewrite (@topic_integer hex_prefixed (x :: t3)) by discriminate.
                 discriminate.
Qed.

Lemma parse_log_error_kind_witness :
  (IndexError = IndexError /\ (length (topics (Sample.three_topic_log 7)) < 4)%nat) \/
  (IndexError = ValueError /\
   ((exists i t, (1 <= i <= 2)%nat /\
                 nth_error (topics (Sample.three_topic_log 7)) i = Some t /\
                 (length t < 20)%nat) \/
    nth_error (topics (Sample.three_topic_log 7)) 3 = Some [])).
Proof.
  apply (@parse_log_error_kind false (Sample.three_topic_log 7) true IndexError).
  vm_compute. reflexivity.
Defined.

Lemma big_endian_bound (b : bytes) :
  0 <= big_endian_to_int b < 256 ^ Z.of_nat (length b).
Proof.
  induction b as [|x b IH] using rev_ind.
  - cbn. lia.
  - rewrite big_endian_snoc, length_app, Nat2Z.inj_add, Z.pow_add_r by lia.
    pose proof (byte_val_range x). cbn [length]. change (256 ^ Z.of_nat 1) with 256.
    nia.
Qed.

Lemma length_slice_le {A} (i j : nat) (s : list A) :
  (length (slice i j s) <= j - i)%nat.
Proof. unfold slice. rewrite length_firstn. lia. Qed.

Lemma big_endian_word_bound (b : bytes) :
  (length b <= 32)%nat -> 0 <= big_endian_to_int b < 2 ^ 256.
Proof.
  intros Hlen. pose proof (big_endian_bound b) as [Hlo Hhi]. split; [exact Hlo|].
  eapply Z.lt_le_trans; [exact Hhi|].
  change (2 ^ 256) with (256 ^ Z.of_nat 32).
  apply Z.pow_le_mono_r; lia.
Qed.

(** What any decoded event looks like: the event is a function of the last
    20 bytes of topics 1 and 2, of topic 3, of the first 64 bytes of data, of
    the transaction hash and of the block number. *)
Lemma parse_log_inversion (hex_prefixed : bool) (l : LogReceipt) (c : bool)
    (d : ParsedData) :
  outcome (_parse_log hex_prefixed l c) = Ok d ->
  exists t0 t1 t2 t3 rest,
    topics l = t0 :: t1 :: t2 :: t3 :: rest /\
    (20 <= length t1)%nat /\ (20 <= length t2)%nat /\ t3 <> [] /\
    d = {| token := checksum_encode (hexlify (last_n 20 t1));
           sender := checksum_encode (hexlify (last_n 20 t2));
           nonce := big_endian_to_int t3;
           amount := big_endian_to_int (slice 0 32 (data l));
           destinationChainId := big_endian_to_int (slice 32 64 (data l));
           txHash := HexBytes_hex hex_prefixed (transactionHash l);
           blockHeight := blockNumber l |}.
Proof.
  rewrite parse_log_run. cbn [outcome]. intros Hd.
  destruct (topics l) as [|t0 [|t1 [|t2 [|t3 rest]]]] eqn:Ht;
    try (destruct (@decode_few_topics hex_prefixed l) as [e He];
         [rewrite Ht; cbn; lia | congruence]).
  rewrite (decode_four_topics hex_prefixed l Ht) in Hd.
  destruct (Nat.ltb_spec (length t1) 20); [discriminate|].
  destruct (Nat.ltb_spec (length t2) 20); [discriminate|].
  destruct t3 as [|x t3]; [discriminate|].
  exists t0, t1, t2, (x :: t3), rest.
  repeat split; try assumption; try discriminate. now injection Hd.
Qed.

(** X9.  The integers of a decoded event are unsigned and of bounded width:
    [amount] and [destinationChainId] are below 2^256 whatever the length of
    the data, [nonce] is below 256 to the length of topic 3. *)
Theorem parse_log_integer_bounds (hex_prefixed : bool) (l : LogReceipt) (c : bool)
    (d : ParsedData) :
  outcome (_parse_log hex_prefixed l c) = Ok d ->
  0 <= amount d < 2 ^ 256 /\
  0 <= destinationChainId d < 2 ^ 256 /\
  exists t3, nth_error (topics l) 3 = Some t3 /\
             0 <= nonce d < 256 ^ Z.of_nat (length t3).
Proof.
  intros Hd.
  destruct (parse_log_inversion _ _ _ Hd)
    as (t0 & t1 & t2 & t3 & rest & Ht & _ & _ & _ & ->).
  cbn [amount destinationChainId nonce]. repeat split;
    try (apply big_endian_word_bound; apply (length_slice_le 0 32));
    try (apply big_endian_word_bound; apply (length_slice_le 32 64)).
  exists t3. rewrite Ht. split; [reflexivity | apply big_endian_bound].
Qed.

Lemma parse_log_integer_bounds_witness :
  0 <= 0 < 2 ^ 256 /\
  0 <= 0 < 2 ^ 256 /\
  exists t3, nth_error (topics (Sample.no_data_log 994)) 3 = Some t3 /\
             0 <= 42 < 256 ^ Z.of_nat (length t3).
Proof.
  refine (@parse_log_integer_bounds false (Sample.no_data_log 994) true
            {| token := lit "0x5aAeb6053F3E94C9b9A09f33669435E7Ef1BeAed";
               sender := lit "0xfB6916095ca1df60bB79Ce92cE3Ea74c37c5d359";
               nonce := 42; amount := 0; destinationChainId := 0;
               txHash := hexlify Sample.tx_hash;
               blockHeight := 994 |} _).
  vm_compute. reflexivity.
Defined.

(** X10.  The addresses of a decoded event are in normal form:
    [to_checksum_address] maps them to themselves, and they spell the last 20
    bytes of topics 1 and 2. *)
Theorem parse_log_addresses_normal (hex_prefixed : bool) (l : LogReceipt) (c : bool)
    (d : ParsedData) :
  outcome (_parse_log hex_prefixed l c) = Ok d ->
  to_checksum_address (token d) = Ok (token d) /\
  to_checksum_address (sender d) = Ok (sender d) /\
  option_map (last_n 20) (nth_error (topics l) 1) = address_bytes (token d) /\
  option_map (last_n 20) (nth_error (topics l) 2) = address_bytes (sender d).
Proof.
  intros Hd.
  destruct (parse_log_inversion _ _ _ Hd)
    as (t0 & t1 & t2 & t3 & rest & Ht & H1 & H2 & _ & ->).
  cbn [token sender]. rewrite Ht. cbn [nth_error option_map].
  rewrite !address_bytes_checksum. repeat split.
  - apply (@to_checksum_address_idempotent (lit "0x" ++ hexlify (last_n 20 t1))).
    apply to_checksum_address_hexlify, length_last_n. lia.
  - apply (@to_checksum_address_idempotent (lit "0x" ++ hexlify (last_n 20 t2))).
    apply to_checksum_address_hexlify, length_last_n. lia.
Qed.

Lemma parse_log_addresses_normal_witness :
  to_checksum_address (lit "0x5aAeb6053F3E94C9b9A09f33669435E7Ef1BeAed")
  = Ok (lit "0x5aAeb6053F3E94C9b9A09f33669435E7Ef1BeAed").
Proof.
  refine (proj1 (@parse_log_addresses_normal true (Sample.good_log 994) true
                   {| token := lit "0x5aAeb6053F3E94C9b9A09f33669435E7Ef1BeAed";
                      sender := lit "0xfB6916095ca1df60bB79Ce92cE3Ea74c37c5d359";
                      nonce := 42; amount := 1000000; destinationChainId := 1;
                      txHash := lit "0x" ++ hexlify Sample.tx_hash;
                      blockHeight := 994 |} _)).
  vm_compute. reflexivity.
Defined.

Lemma slice_low_word {A} (s : list A) : slice 0 32 (slice 0 64 s) = slice 0 32 s.
Proof.
  unfold slice. change (skipn 0 ?x) with x.
  change (32 - 0)%nat with 32%nat. change (64 - 0)%nat with 64%nat.
  now rewrite firstn_firstn.
Qed.

Lemma slice_high_word {A} (s : list A) : slice 32 64 (slice 0 64 s) = slice 32 64 s.
Proof.
  unfold slice. change (skipn 0 s) with s.
  change (64 - 0)%nat with 64%nat. change (64 - 32)%nat with 32%nat.
  rewrite skipn_firstn_comm. change (64 - 32)%nat with 32%nat.
  now rewrite firstn_firstn.
Qed.

(** The text of an address topic depends on its last 20 bytes only. *)
Lemma topic_address_low (hex_prefixed : bool) (t t' : bytes) :
  last_n 20 t = last_n 20 t' ->
  last_n 40 (HexBytes_hex hex_prefixed t) = last_n 40 (HexBytes_hex hex_prefixed t').
Proof.
  intros H.
  destruct (Nat.le_gt_cases 20 (length t)) as [Ht|Ht];
    destruct (Nat.le_gt_cases 20 (length t')) as [Ht'|Ht'].
  - now rewrite (@topic_address hex_prefixed t Ht), (@topic_address hex_prefixed t' Ht'), H.
  - exfalso. apply (f_equal (@length byte)) in H.
    rewrite (@length_last_n _ 20%nat t), (@last_n_short _ 20%nat t') in H by lia. lia.
  - exfalso. apply (f_equal (@length byte)) in H.
    rewrite (@length_last_n _ 20%nat t'), (@last_n_short _ 20%nat t) in H by lia. lia.
  - rewrite (@last_n_short _ 20%nat t), (@last_n_short _ 20%nat t') in H by lia.
    now subst.
Qed.

(** X11.  What [_parse_log] does not read: topic 0, the topics after topic 3, all
    but the last 20 bytes of topics 1 and 2, and the data after its first 64
    bytes.  Two logs that agree on the rest are decoded alike. *)
Theorem parse_log_reads_only (hex_prefixed : bool) (l l' : LogReceipt) (c : bool) :
  option_map (last_n 20) (nth_error (topics l) 1)
  = option_map (last_n 20) (nth_error (topics l') 1) ->
  option_map (last_n 20) (nth_error (topics l) 2)
  = option_map (last_n 20) (nth_error (topics l') 2) ->
  nth_error (topics l) 3 = nth_error (topics l') 3 ->
  slice 0 64 (data l) = slice 0 64 (data l') ->
  transactionHash l = transactionHash l' ->
  blockNumber l = blockNumber l' ->
  _parse_log hex_prefixed l c = _parse_log hex_prefixed l' c.
Proof.
  intros H1 H2 H3 Hdata Htx Hnum.
  rewrite !parse_log_run.
  assert (decode hex_prefixed l = decode hex_prefixed l') as ->; [|reflexivity].
  unfold decode, _parse_log, bind, lift, log, emit, ret, raise, getitem.
  rewrite <- (slice_low_word (data l)), <- (slice_high_word (data l)).
  rewrite <- (slice_low_word (data l')), <- (slice_high_word (data l')).
  rewrite Hdata, Htx, Hnum, H3.
  destruct (nth_error (topics l) 1) as [t1|], (nth_error (topics l') 1) as [t1'|];
    cbn [option_map] in H1; try discriminate H1; [|reflexivity].
  injection H1 as H1. rewrite (topic_address_low hex_prefixed _ _ H1).
  destruct (to_checksum_address _); [|reflexivity].
  destruct (nth_error (topics l) 2) as [t2|], (nth_error (topics l') 2) as [t2'|];
    cbn [option_map] in H2; try discriminate H2; [|reflexivity].
  injection H2 as H2. rewrite (topic_address_low hex_prefixed _ _ H2).
  reflexivity.
Qed.

Lemma parse_log_reads_only_witness :
  _parse_log false (Sample.good_log 994) true
  = _parse_log false
      {| topics := [ [];
                     repeat xff 12 ++ Sample.token_address;
                     [x01] ++ Sample.sender_address;
                     int_to_big_endian 32 42;
                     [xde; xad] ];
         data := data (Sample.good_log 994) ++ [xbe; xef];
         transactionHash := Sample.tx_hash;
         blockNumber := 994 |} true.
Proof.
  apply parse_log_reads_only; vm_compute; reflexivity.
Defined.

(** ** More on the scanner *)

Lemma sink_calls_app (t u : list effect) :
  sink_calls (t ++ u) = sink_calls t ++ sink_calls u.
Proof. unfold sink_calls. apply flat_map_app. Qed.

Lemma sink_calls_log_records (t : list effect) :
  forallb is_log_record t = true -> sink_calls t = [].
Proof.
  induction t as [|e t IH]; cbn; [reflexivity|].
  destruct e; cbn; try discriminate. exact IH.
Qed.

(** X12.  A call of [scan_blocks] on a range that is not empty, with bounds
    that print, sends one request to the node, the log query for that very
    range, when the connector is set, and none when it is not; it hands
    nothing to the sink and leaves the connector as it is. *)
Theorem scan_blocks_single_query (hex_prefixed : bool) (w : World)
    (from_block to_block : Z) (c : bool) :
  from_block <= to_block ->
  printable from_block = true ->
  printable to_block = true ->
  filter is_rpc (effects (scan_blocks_call hex_prefixed w from_block to_block c))
  = (if c then [EthGetLogs from_block to_block] else []) /\
  sink_calls (effects (scan_blocks_call hex_prefixed w from_block to_block c)) = [] /\
  w3 (scan_blocks_call hex_prefixed w from_block to_block c) = c.
Proof.
  intros Hle Hf Ht. destruct c.
  - rewrite scan_blocks_call_connected by assumption.
    destruct (scan_blocks_run hex_prefixed w true Hle) as (tail & -> & Htail).
    cbn [outcome w3 effects filter is_rpc]. repeat split.
    + f_equal. clear - Htail. induction tail as [|e tail IH]; [reflexivity|].
      cbn in Htail |- *. destruct e; cbn in *; try discriminate. now apply IH.
    + change (sink_calls (?a :: ?b :: tail)) with (sink_calls tail).
      now apply sink_calls_log_records.
  - rewrite scan_blocks_call_unconnected by assumption.
    repeat split.
Qed.

Lemma scan_blocks_single_query_witness :
  filter is_rpc
    (effects (scan_blocks_call false
                (Sample.world 116 (Ok [Sample.good_log 105]) (Ok true)) 100 110 true))
  = [EthGetLogs 100 110] /\
  filter is_rpc
    (effects (scan_blocks_call false
                (Sample.world 116 (Ok [Sample.good_log 105]) (Ok true)) 100 110 false))
  = [].
Proof.
  split.
  - apply (@scan_blocks_single_query false
             (Sample.world 116 (Ok [Sample.good_log 105]) (Ok true)) 100 110 true
             ltac:(lia) ltac:(vm_compute; reflexivity) ltac:(vm_compute; reflexivity)).
  - apply (@scan_blocks_single_query false
             (Sample.world 116 (Ok [Sample.good_log 105]) (Ok true)) 100 110 false
             ltac:(lia) ltac:(vm_compute; reflexivity) ltac:(vm_compute; reflexivity)).
Defined.




(** ** The sink *)


(** ** More on the poll loop *)

Section LoopFacts.

Variable hex_prefixed : bool.
Variable config : Config.

Local Notation "'CONF'" := (CONFIRMATIONS_REQUIRED config).
Local Notation "'POLL'" := (POLL_INTERVAL_SECONDS config).


Lemma total_sleep_log_records (t : list effect) :
  forallb is_log_record t = true -> total_sleep t = 0.
Proof.
  induction t as [|e t IH]; cbn; [reflexivity|].
  destruct e; cbn; try discriminate. exact IH.
Qed.

Lemma get_latest_block_quiet (w : World) (c : bool) :
  total_sleep (effects (get_latest_block w c)) = 0 /\
  sink_calls (effects (get_latest_block w c)) = [].
Proof.
  unfold get_latest_block, connect, bind, try_except, log, emit, lift, ret,
    raise, get_w3, set_w3.
  destruct c, (connect_result w) as [[]|], (block_number_result w); split; reflexivity.
Qed.

Lemma scan_blocks_quiet (w : World) (from_block to_block : Z) (c : bool) :
  total_sleep (effects (scan_blocks hex_prefixed w from_block to_block c)) = 0 /\
  sink_calls (effects (scan_blocks hex_prefixed w from_block to_block c)) = [] /\
  w3 (scan_blocks hex_prefixed w from_block to_block c) = c.
Proof.
  destruct (Z.le_gt_cases from_block to_block) as [Hle|Hgt].
  - destruct (scan_blocks_run hex_prefixed w c Hle) as (tail & -> & Htail).
    cbn [outcome w3 effects]. repeat split.
    + change (total_sleep (?a :: ?b :: tail)) with (total_sleep tail).
      now apply total_sleep_log_records.
    + change (sink_calls (?a :: ?b :: tail)) with (sink_calls tail).
      now apply sink_calls_log_records.
  - rewrite scan_blocks_skip by lia. repeat split.
Qed.


(** The sink is called with the events one by one, in order, as long as it
    does not raise. *)
Lemma process_events_delivers (w : World) (events : list ParsedData) (i : nat) (c : bool) :
  (forall j, (j < length events)%nat ->
             exists b, process_event_result w (i + j) = Ok b) ->
  sink_calls (effects (process_events w i events c)) = events.
Proof.
  revert i c. induction events as [|ev events IH]; intros i c Hsink;
    cbn [process_events].
  - reflexivity.
  - rewrite effects_bind, process_event_run. cbn [outcome w3 effects].
    destruct (Hsink 0%nat ltac:(cbn; lia)) as [b Hb].
    rewrite Nat.add_0_r in Hb. rewrite Hb.
    assert (sink_calls (effects (process_events w (S i) events c)) = events) as Hrest.
    { apply IH. intros j Hj. destruct (Hsink (S j) ltac:(cbn; lia)) as [b' Hb'].
      exists b'. now rewrite <- Hb', Nat.add_succ_r. }
    destruct b; cbn [negb]; rewrite effects_bind;
      cbn [log emit ret outcome w3 effects]; rewrite !sink_calls_app, Hrest;
      reflexivity.
Qed.

(** They stop at the first call that raises. *)
Lemma process_events_stops (w : World) (events : list ParsedData) (i j : nat)
    (c : bool) (e : exn) :
  (j < length events)%nat ->
  process_event_result w (i + j) = Raise e ->
  (forall k, (k < j)%nat -> exists b, process_event_result w (i + k) = Ok b) ->
  outcome (process_events w i events c) = Raise e /\
  sink_calls (effects (process_events w i events c)) = firstn (S j) events.
Proof.
  revert i j c. induction events as [|ev events IH]; intros i j c Hj He Hbefore;
    cbn [process_events]; [cbn in Hj; lia|].
  rewrite outcome_bind, effects_bind, process_event_run. cbn [outcome w3 effects].
  destruct j as [|j].
  - rewrite Nat.add_0_r in He. rewrite He. split; reflexivity.
  - destruct (Hbefore 0%nat ltac:(lia)) as [b Hb].
    rewrite Nat.add_0_r in Hb. rewrite Hb.
    destruct (IH (S i) j c) as [Ho Hs].
    + cbn in Hj. lia.
    + now rewrite <- He, Nat.add_succ_r.
    + intros k Hk. destruct (Hbefore (S k) ltac:(lia)) as [b' Hb'].
      exists b'. now rewrite <- Hb', Nat.add_succ_r.
    + destruct b; cbn [negb]; rewrite outcome_bind, effects_bind;
        cbn [log emit ret outcome w3 effects]; rewrite !sink_calls_app, Ho, Hs;
        split; reflexivity.
Qed.

Local Notation "'deliver' w events" :=
  (if truthy events
   then log INFO (MsgNewEvents (length events));; process_events w 0 events
   else ret tt) (at level 10, w at level 9, events at level 9).


Lemma deliver_all (w : World) (events : list ParsedData) (c : bool) :
  (forall j, (j < length events)%nat ->
             exists b, process_event_result w j = Ok b) ->
  outcome ((deliver w events) c) = Ok tt /\
  sink_calls (effects ((deliver w events) c)) = events.
Proof.
  intros Hsink. destruct events as [|ev events]; [split; reflexivity|].
  cbn [truthy]. rewrite outcome_bind, effects_bind.
  cbn [log emit outcome w3 effects].
  rewrite sink_calls_app, process_events_ok, process_events_delivers by exact Hsink.
  split; reflexivity.
Qed.

Lemma deliver_stops (w : World) (events : list ParsedData) (j : nat) (c : bool)
    (e : exn) :
  (j < length events)%nat ->
  process_event_result w j = Raise e ->
  (forall k, (k < j)%nat -> exists b, process_event_result w k = Ok b) ->
  outcome ((deliver w events) c) = Raise e /\
  sink_calls (effects ((deliver w events) c)) = firstn (S j) events.
Proof.
  intros Hj He Hbefore.
  destruct events as [|ev events]; [cbn in Hj; lia|].
  cbn [truthy]. rewrite outcome_bind, effects_bind.
  cbn [log emit outcome w3 effects]. rewrite sink_calls_app.
  destruct (@process_events_stops w (ev :: events) 0 j c e Hj He Hbefore)
    as [-> ->].
  split; reflexivity.
Qed.

(** The [try] suite of a pass that reads the head and finds a range to
    scan, piece by piece. *)
Lemma cycle_try_scanning (w : World) (last latest : Z) (c : bool)
    (events : list ParsedData) :
  outcome (get_latest_block w c) = Ok latest ->
  last + 1 <= latest - CONF ->
  outcome (scan_blocks hex_prefixed w (last + 1) (latest - CONF)
             (w3 (get_latest_block w c))) = Ok events ->
  outcome (cycle_try hex_prefixed config w last c)
  = match outcome ((deliver w events) (w3 (get_latest_block w c))) with
    | Ok _ => Ok (latest - CONF)
    | Raise e => Raise e
    end /\
  effects (cycle_try hex_prefixed config w last c)
  = effects (get_latest_block w c)
    ++ effects (scan_blocks hex_prefixed w (last + 1) (latest - CONF)
                  (w3 (get_latest_block w c)))
    ++ effects ((deliver w events) (w3 (get_latest_block w c)))
    ++ match outcome ((deliver w events) (w3 (get_latest_block w c))) with
       | Ok _ => [Log INFO (MsgScanComplete (latest - CONF))]
       | Raise _ => []
       end.
Proof.
  intros Hhead Hle Hscan. unfold cycle_try.
  rewrite outcome_bind, effects_bind, Hhead.
  apply Z.leb_le in Hle as Hleb. rewrite Hleb.
  rewrite outcome_bind, effects_bind, Hscan.
  destruct (scan_blocks_quiet w (last + 1) (latest - CONF)
              (w3 (get_latest_block w c))) as (_ & _ & ->).
  rewrite outcome_bind, effects_bind.
  destruct (outcome ((deliver w events) (w3 (get_latest_block w c)))).
  - rewrite outcome_bind, effects_bind. split; reflexivity.
  - split; reflexivity.
Qed.


Lemma cycle_effects (w : World) (last : Z) (c : bool) :
  effects (cycle hex_prefixed config w last c)
  = effects (cycle_try hex_prefixed config w last c)
    ++ match outcome (cycle_try hex_prefixed config w last c) with
       | Ok _ => []
       | Raise e => effects (cycle_except config w last e
                               (w3 (cycle_try hex_prefixed config w last c)))
       end
    ++ [Sleep POLL].
Proof.
  unfold cycle. rewrite effects_bind, effects_try, outcome_try, <- app_assoc.
  do 2 f_equal.
  destruct (outcome (cycle_try hex_prefixed config w last c)) as [a|e].
  - rewrite effects_bind. reflexivity.
  - destruct (cycle_except_run config w last e
                (w3 (cycle_try hex_prefixed config w last c))) as [-> _].
    rewrite effects_bind. reflexivity.
Qed.





(** X18.  With no block newly confirmed, the pass queries no log, calls no sink
    and leaves the cursor. *)
Theorem cycle_idle (w : World) (last latest : Z) (c : bool) :
  outcome (get_latest_block w c) = Ok latest ->
  latest - CONF < last + 1 ->
  outcome (cycle hex_prefixed config w last c) = Ok last /\
  scanned_ranges (effects (cycle hex_prefixed config w last c)) = [] /\
  sink_calls (effects (cycle hex_prefixed config w last c)) = [].
Proof.
  intros Hhead Hlt.
  assert (cycle_try hex_prefixed config w last c
          = {| outcome := Ok last;
               w3 := w3 (get_latest_block w c);
               effects := effects (get_latest_block w c)
                          ++ [Log INFO (MsgNoNewBlocks latest)] |}) as Htry.
  { unfold cycle_try, bind.
    destruct (get_latest_block w c) as [o c1 t1]. cbn [outcome] in Hhead. subst o.
    destruct (Z.leb_spec (last + 1) (latest - CONF)); [lia|]. reflexivity. }
  repeat split.
  - now rewrite cycle_outcome, Htry.
  - rewrite cycle_ranges, Hhead.
    destruct (Z.leb_spec (last + 1) (latest - CONF)); [lia | reflexivity].
  - rewrite cycle_effects, Htry. cbn [outcome effects].
    rewrite !sink_calls_app.
    destruct (get_latest_block_quiet w c) as [_ ->]. reflexivity.
Qed.


Lemma get_latest_block_number (w : World) (c : bool) (n : Z) :
  outcome (get_latest_block w c) = Ok n -> block_number_result w = Ok n.
Proof.
  unfold get_latest_block, connect, bind, try_except, log, emit, lift, ret,
    raise, get_w3, set_w3.
  destruct c, (connect_result w) as [[]|], (block_number_result w); cbn;
    intros H; try discriminate H; injection H as <-; reflexivity.
Qed.

(** X20.  When [get_latest_block] returns, the number is the one the node gave
    and the connector is connected; starting without a connection, that
    takes a successful [connect] first. *)
Theorem get_latest_block_returns (w : World) (c : bool) (n : Z) :
  outcome (get_latest_block w c) = Ok n ->
  block_number_result w = Ok n /\
  w3 (get_latest_block w c) = true /\
  (c = false -> connect_result w = None).
Proof.
  unfold get_latest_block, connect, bind, try_except, log, emit, lift, ret,
    raise, get_w3, set_w3.
  destruct c, (connect_result w) as [[]|], (block_number_result w); cbn;
    intros H; try discriminate H; injection H as <-; repeat split;
    intros H'; discriminate H'.
Qed.

End LoopFacts.



Lemma cycle_idle_witness :
  outcome (cycle false Sample.config (Sample.world 1000 (Ok []) (Ok true)) 994 true)
  = Ok 994 /\
  scanned_ranges
    (effects (cycle false Sample.config (Sample.world 1000 (Ok []) (Ok true)) 994 true))
  = [] /\
  sink_calls
    (effects (cycle false Sample.config (Sample.world 1000 (Ok []) (Ok true)) 994 true))
  = [].
Proof.
  apply (@cycle_idle false Sample.config (Sample.world 1000 (Ok []) (Ok true))
           994 1000 true).
  - reflexivity.
  - cbn. lia.
Defined.



Lemma get_latest_block_returns_witness :
  let w := {| connect_result := None;
              block_number_result := Ok 1000;
              get_logs_result := fun _ _ => Ok [];
              process_event_result := fun _ => Ok true;
              reconnect_result := None |} in
  block_number_result w = Ok 1000 /\
  w3 (get_latest_block w false) = true /\
  (false = false -> connect_result w = None).
Proof.
  intros w. apply (@get_latest_block_returns w false 1000). reflexivity.
Defined.

(** ** The commit of a pass *)

(** Where a call of the sink raises there is a first one. *)
Lemma first_raise (f : nat -> res bool) (n : nat) :
  (exists j e, (j < n)%nat /\ f j = Raise e) ->
  exists j e, (j < n)%nat /\ f j = Raise e /\
              forall k, (k < j)%nat -> exists b, f k = Ok b.
Proof.
  intros Hex.
  assert ((forall k, (k < n)%nat -> exists b, f k = Ok b) \/
          (exists j e, (j < n)%nat /\ f j = Raise e /\
                       forall k, (k < j)%nat -> exists b, f k = Ok b)) as [Hall|H].
  { clear Hex. induction n as [|n [Hall|(j & e & Hj & He & Hb)]].
    - left. intros k Hk. inversion Hk.
    - destruct (f n) as [b|e] eqn:Hn.
      + left. intros k Hk.
        destruct (Nat.eq_dec k n) as [->|Hne]; [eauto | apply Hall; lia].
      + right. exists n, e. repeat split; [lia | assumption | assumption].
    - right. exists j, e. repeat split; [lia | assumption | assumption]. }
  - destruct Hex as (j & e & Hj & He). destruct (Hall j Hj) as [b Hb].
    rewrite Hb in He. discriminate He.
  - exact H.
Qed.

Lemma get_latest_block_w3 (w : World) (c : bool) (n : Z) :
  outcome (get_latest_block w c) = Ok n -> w3 (get_latest_block w c) = true.
Proof.
  unfold get_latest_block, connect, bind, try_except, log, emit, lift, ret,
    raise, get_w3, set_w3.
  destruct c, (connect_result w) as [[]|], (block_number_result w); cbn;
    intros H; try discriminate H; reflexivity.
Qed.

(** C3, as the code has it.  In a pass where the head is read, the range
    from the cursor to the confirmed head is not empty and the call of
    [scan_blocks] returns, the cursor is set to the end of the range when no
    call of [process_event] raises; an unavailable range and an empty
    result, for which the call returns no event, are among these.  When a
    call of [process_event] raises, whatever the exception, the handlers of
    the loop catch it and the cursor stays where it was. *)
Theorem cycle_commits (hex_prefixed : bool) (config : Config)
    (w : World) (last latest : Z) (c : bool) (events : list ParsedData) :
  outcome (get_latest_block w c) = Ok latest ->
  last + 1 <= latest - CONFIRMATIONS_REQUIRED config ->
  outcome (scan_blocks_call hex_prefixed w (last + 1)
             (latest - CONFIRMATIONS_REQUIRED config)
             (w3 (get_latest_block w c))) = Ok events ->
  ((forall j, (j < length events)%nat ->
              exists b, process_event_result w j = Ok b) ->
   outcome (cycle hex_prefixed config w last c)
   = Ok (latest - CONFIRMATIONS_REQUIRED config)) /\
  ((exists j e, (j < length events)%nat /\ process_event_result w j = Raise e) ->
   outcome (cycle hex_prefixed config w last c) = Ok last /\
   last <> latest - CONFIRMATIONS_REQUIRED config) /\
  (get_logs_result w (last + 1) (latest - CONFIRMATIONS_REQUIRED config)
   = Raise BlockNotFound \/
   get_logs_result w (last + 1) (latest - CONFIRMATIONS_REQUIRED config) = Ok [] ->
   events = [] /\
   outcome (cycle hex_prefixed config w last c)
   = Ok (latest - CONFIRMATIONS_REQUIRED config)).
Proof.
  intros Hhead Hle Hcall.
  destruct (scan_blocks_call_returns _ _ _ Hle Hcall) as [Hf Ht].
  rewrite (get_latest_block_w3 w c Hhead) in Hcall.
  rewrite scan_blocks_call_connected in Hcall by assumption.
  rewrite <- (get_latest_block_w3 w c Hhead) in Hcall.
  rewrite cycle_outcome.
  destruct (@cycle_try_scanning hex_prefixed config w last latest c events
              Hhead Hle Hcall) as [-> _].
  assert ((forall j, (j < length events)%nat ->
                     exists b, process_event_result w j = Ok b) ->
          match outcome ((if truthy events
                          then log INFO (MsgNewEvents (length events)) ;;
                               process_events w 0 events
                          else ret tt)%py (w3 (get_latest_block w c))) with
          | Ok _ => Ok (latest - CONFIRMATIONS_REQUIRED config)
          | Raise e => Raise e
          end = Ok (latest - CONFIRMATIONS_REQUIRED config)) as Hcommit.
  { intros Hsink.
    destruct (@deliver_all w events (w3 (get_latest_block w c)) Hsink) as [-> _].
    reflexivity. }
  split; [|split].
  - intros Hsink. now rewrite Hcommit.
  - intros Hex. apply first_raise in Hex as (j & e & Hj & He & Hbefore).
    destruct (@deliver_stops w events j (w3 (get_latest_block w c)) e
                Hj He Hbefore) as [-> _].
    split; [reflexivity | lia].
  - intros Hq.
    assert (events = []) as ->.
    { rewrite scan_blocks_outcome in Hcall.
      destruct (Z.gtb_spec (last + 1) (latest - CONFIRMATIONS_REQUIRED config));
        [lia|].
      destruct Hq as [Hq|Hq]; rewrite Hq in Hcall; cbn [existsb] in Hcall;
        now injection Hcall as <-. }
    split; [reflexivity|].
    rewrite Hcommit; [reflexivity|]. intros j Hj. inversion Hj.
Qed.

Lemma cycle_commits_witness :
  outcome (cycle false Sample.config
             (Sample.world 1000 (Ok [Sample.good_log 994]) (Ok false)) 993 true)
  = Ok 994 /\
  outcome (cycle false Sample.config
             (Sample.world 1000 (Ok [Sample.good_log 994]) (Raise AttributeError))
             993 true)
  = Ok 993 /\
  outcome (cycle false Sample.config
             (Sample.world 1000 (Ok []) (Ok true)) 993 true)
  = Ok 994.
Proof.
  split; [|split].
  - apply (proj1 (@cycle_commits false Sample.config
                    (Sample.world 1000 (Ok [Sample.good_log 994]) (Ok false))
                    993 1000 true (decoded false [Sample.good_log 994])
                    eq_refl ltac:(cbn; lia) ltac:(vm_compute; reflexivity))).
    intros j _. exists false. reflexivity.
  - apply (proj1 (proj2 (@cycle_commits false Sample.config
             (Sample.world 1000 (Ok [Sample.good_log 994]) (Raise AttributeError))
             993 1000 true (decoded false [Sample.good_log 994])
             eq_refl ltac:(cbn; lia) ltac:(vm_compute; reflexivity)))).
    exists 0%nat, AttributeError. split; [vm_compute; lia | reflexivity].
  - apply (proj2 (proj2 (@cycle_commits false Sample.config
             (Sample.world 1000 (Ok []) (Ok true))
             993 1000 true []
             eq_refl ltac:(cbn; lia) ltac:(vm_compute; reflexivity)))).
    right. reflexivity.
Defined.

(** ** Runs of the loop *)

Section RunFacts.

Variable hex_prefixed : bool.
Variable config : Config.

Local Notation "'CONF'" := (CONFIRMATIONS_REQUIRED config).

Lemma run_ranges_cons (w : World) (ws : list World) (c0 : Z) (c : bool) :
  exists a,
    outcome (cycle hex_prefixed config w c0 c) = Ok a /\ c0 <= a /\
    scanned_ranges (effects (run hex_prefixed config (w :: ws) c0 c))
    = scanned_ranges (effects (cycle hex_prefixed config w c0 c))
      ++ scanned_ranges
           (effects (run hex_prefixed config ws a
                       (w3 (cycle hex_prefixed config w c0 c)))).
Proof.
  destruct (cycle_monotonic hex_prefixed config w c0 c) as (a & Ha & Hle).
  exists a. repeat split; try assumption.
  cbn [run]. now rewrite effects_bind, scanned_ranges_app, Ha.
Qed.

Lemma run_ranges_above (ws : list World) (c0 : Z) (c : bool) :
  Forall (fun r => c0 + 1 <= fst r <= snd r)
         (scanned_ranges (effects (run hex_prefixed config ws c0 c))).
Proof.
  revert c0 c. induction ws as [|w ws IH]; intros c0 c.
  - constructor.
  - destruct (run_ranges_cons w ws c0 c) as (a & Ha & Hle & ->).
    apply Forall_app. split.
    + rewrite cycle_ranges.
      destruct (outcome (get_latest_block w c)) as [latest|e]; [|constructor].
      destruct (Z.leb_spec (c0 + 1) (latest - CONF)); constructor.
      * cbn. lia.
      * constructor.
    + eapply Forall_impl; [|apply IH]. cbn. intros r Hr. lia.
Qed.

(** X21.  However the passes go, every range the loop asks the node for is not
    empty and lies above the cursor the loop started with, and the ranges
    come with non-decreasing first blocks: the scan never goes back. *)
Theorem run_ranges_ordered (ws : list World) (c0 : Z) (c : bool) :
  Forall (fun r => c0 + 1 <= fst r <= snd r)
         (scanned_ranges (effects (run hex_prefixed config ws c0 c))) /\
  StronglySorted Z.le
    (map fst (scanned_ranges (effects (run hex_prefixed config ws c0 c)))).
Proof.
  split; [apply run_ranges_above|].
  revert c0 c. induction ws as [|w ws IH]; intros c0 c.
  - constructor.
  - destruct (run_ranges_cons w ws c0 c) as (a & Ha & Hle & ->).
    pose proof (run_ranges_above ws a (w3 (cycle hex_prefixed config w c0 c)))
      as Hrest.
    rewrite cycle_ranges.
    destruct (outcome (get_latest_block w c)) as [latest|e]; [|apply IH].
    destruct (Z.leb_spec (c0 + 1) (latest - CONF)) as [Hin|Hout]; [|apply IH].
    cbn [app map fst]. constructor; [apply IH|].
    apply Forall_map. eapply Forall_impl; [|exact Hrest]. cbn. intros r Hr. lia.
Qed.

(** X22.  The cursor of a run is the one it started with or the confirmed head of
    one of its passes: a head the node reported, less the confirmations. *)
Theorem run_cursor_confirmed_head (ws : list World) (c0 : Z) (c : bool) :
  exists cN,
    outcome (run hex_prefixed config ws c0 c) = Ok cN /\
    (cN = c0 \/
     exists w latest,
       In w ws /\ block_number_result w = Ok latest /\ cN = latest - CONF).
Proof.
  revert c0 c. induction ws as [|w ws IH]; intros c0 c.
  - exists c0. split; [reflexivity | now left].
  - cbn [run]. rewrite outcome_bind.
    destruct (cycle_cases hex_prefixed config w c0 c)
      as [E | (latest & Hhead & _ & E & _)]; rewrite E.
    + destruct (IH c0 (w3 (cycle hex_prefixed config w c0 c)))
        as (cN & -> & [-> | (w' & l' & Hin & Hb & ->)]).
      * exists c0. split; [reflexivity | now left].
      * eexists. split; [reflexivity|]. right. exists w', l'.
        repeat split; [now right | exact Hb].
    + apply get_latest_block_number in Hhead as Hb.
      destruct (IH (latest - CONF) (w3 (cycle hex_prefixed config w c0 c)))
        as (cN & -> & [-> | (w' & l' & Hin & Hb' & ->)]).
      * eexists. split; [reflexivity|]. right. exists w, latest.
        repeat split; [now left | exact Hb].
      * eexists. split; [reflexivity|]. right. exists w', l'.
        repeat split; [now right | exact Hb'].
Qed.

(** X23.  Started from the cursor [main] computes, the loop never asks for a
    block below the head at the start less the confirmations: what the
    bridge emitted before that block is not seen. *)
Theorem startup_scan_floor (w0 : World) (c : bool) (c0 : Z) :
  outcome (initial_cursor config w0 c) = Ok c0 ->
  exists h0,
    block_number_result w0 = Ok h0 /\
    c0 = h0 - CONF - 1 /\
    forall (ws : list World) (c' : bool),
      Forall (fun r => h0 - CONF <= fst r)
             (scanned_ranges (effects (run hex_prefixed config ws c0 c'))).
Proof.
  unfold initial_cursor. rewrite outcome_bind.
  destruct (outcome (get_latest_block w0 c)) as [h0|e] eqn:Hhead; [|discriminate].
  cbn [ret outcome]. intros [= <-].
  apply get_latest_block_number in Hhead as Hb.
  exists h0. repeat split; [exact Hb|].
  intros ws c'.
  eapply Forall_impl; [|apply (run_ranges_above ws (h0 - CONF - 1) c')].
  cbn. intros r Hr. lia.
Qed.


End RunFacts.

Lemma startup_scan_floor_witness :
  exists h0,
    block_number_result (Sample.world 1000 (Ok []) (Ok true)) = Ok h0 /\
    993 = h0 - CONFIRMATIONS_REQUIRED Sample.config - 1 /\
    forall (ws : list World) (c' : bool),
      Forall (fun r => h0 - CONFIRMATIONS_REQUIRED Sample.config <= fst r)
             (scanned_ranges (effects (run false Sample.config ws 993 c'))).
Proof.
  apply (@startup_scan_floor false Sample.config
           (Sample.world 1000 (Ok []) (Ok true)) true 993).
  reflexivity.
Defined.

